(** * table.ts: a table of strings and its CSV text form

    A shallow embedding of [src/index.ts]: the [Table] class with its
    serializer ([toString], [convertToproperStr]), its parser
    ([getDataFrom] with the local functions [parseColumn] and [parseRow]),
    the [data] and [columns] accessors and [cloneArray]. *)

From Stdlib Require Import NArith Ascii String DecimalString DecimalNat Lia.
From Equations Require Import Equations.
From stdpp Require Import base option list gmap.

(** ** JavaScript strings

    A JavaScript string is a sequence of UTF-16 code units; [s[i]] is the
    one-unit string at position [i], or [undefined] out of range. *)

Abbreviation codeUnit := N (only parsing).
Abbreviation jsstring := (list N) (only parsing).

(** The string with the given (ASCII) characters. *)
Definition str (s : string) : jsstring := map N_of_ascii (list_ascii_of_string s).

Definition dquote : codeUnit := 34%N.
Definition comma : codeUnit := 44%N.
Definition newline : codeUnit := 10%N.

(** [s[i] == k] for a one-character string [k]; [undefined] equals none. *)
Definition charIs (c : option codeUnit) (k : codeUnit) : bool :=
  match c with
  | Some x => N.eqb x k
  | None => false
  end.

(** [s += data[i]]: concatenating [undefined] appends its name. *)
Definition concatChar (s : jsstring) (c : option codeUnit) : jsstring :=
  match c with
  | Some x => s ++ [x]
  | None => s ++ str "undefined"
  end.

(** A number inside a template string: its decimal digits. *)
Definition numberToString (n : nat) : jsstring :=
  str (NilEmpty.string_of_uint (Nat.to_uint n)).

(** ** Errors (namespace [Table]) *)

Inductive ErrorTypes := InconsistentRowLengths | CannotAccessFile | Unknown.

(** The error object [fs] passes to its callbacks. *)
Record ErrnoException := { message : jsstring }.

Record Error := mkError {
  type : ErrorTypes;
  description : option jsstring;
  data : option ErrnoException;
  dataDescription : option jsstring
}.

(** The object literal thrown by the [data] setter and rejected by
    [getDataFrom]: only [type] and [description] are set. *)
Definition inconsistentRowLengths (rowNumber actual expected : nat) : Error :=
  {| type := InconsistentRowLengths;
     description := Some (str "The row number " ++ numberToString rowNumber
       ++ str " does not have the correct amount of columns (it has "
       ++ numberToString actual ++ str " instead of "
       ++ numberToString expected ++ str ")");
     data := None;
     dataDescription := None |}.

Definition cannotReadFile (filename : jsstring) (error : ErrnoException) : Error :=
  {| type := CannotAccessFile;
     description := Some (str "An error happened while trying to read file " ++ filename);
     data := Some error;
     dataDescription := Some (str "The error") |}.

(** ** The table *)

Record Table := mkTable {
  _columns : list jsstring;
  _data : list (list jsstring)
}.

(** The field initialisers of the class. *)
Definition emptyTable : Table := {| _columns := []; _data := [] |}.

(** *** Serializer *)

(** One turn of the loop of [convertToproperStr] on the character [c];
    the state is [(needsQuotes, properString)]. *)
Definition convertStep (st : bool * jsstring) (c : codeUnit) : bool * jsstring :=
  let '(needsQuotes, properString) := st in
  let '(needsQuotes, properString) :=
    if N.eqb c dquote then (needsQuotes, properString ++ [dquote; dquote])
    else if N.eqb c comma || N.eqb c newline then (true, properString ++ [c])
    else (needsQuotes, properString ++ [c]) in
  if N.eqb c comma then (true, properString) else (needsQuotes, properString).

Definition convertToproperStr (s : jsstring) : jsstring :=
  let '(needsQuotes, properString) :=
    fold_left convertStep s (charIs (s !! 0) dquote, [dquote]) in
  if needsQuotes then properString ++ [dquote] else s.

(** The loops [for (i = 0; i < fields.length; i++) str += (i != 0 ? "," : "")
    + convertToproperStr(fields[i])], entered at index [i]. *)
Fixpoint fieldsLoop (i : nat) (fields : list jsstring) (acc : jsstring) : jsstring :=
  match fields with
  | [] => acc
  | f :: rest =>
      fieldsLoop (S i) rest
        (acc ++ (if Nat.eqb i 0 then [] else [comma]) ++ convertToproperStr f)
  end.

(** The loop over [this._data], entered at index [i]. *)
Fixpoint rowsLoop (i : nat) (rows : list (list jsstring)) (acc : jsstring) : jsstring :=
  match rows with
  | [] => acc
  | r :: rest =>
      rowsLoop (S i) rest
        (fieldsLoop 0 r (if Nat.eqb i 0 then acc else acc ++ [newline]))
  end.

Definition toString (this : Table) : jsstring :=
  let s := fieldsLoop 0 (_columns this) [] in
  if Nat.eqb (length (_data this)) 0 then s
  else rowsLoop 0 (_data this) (s ++ [newline]).

(** *** Parser *)

(** The loop of the unquoted branch of [parseColumn], entered at [i]. *)
Equations? unquotedLoop (data : jsstring) (i : nat) (parsedColumn : jsstring)
  : jsstring * nat by wf (length data - i) lt :=
unquotedLoop data i parsedColumn with decide (i < length data) := {
  | right _ => (parsedColumn, length data)
  | left _ =>
      if charIs (data !! i) comma || charIs (data !! i) newline
      then (parsedColumn, i)
      else unquotedLoop data (S i) (concatChar parsedColumn (data !! i)) }.
Proof. all: lia. Qed.

(** The loop of the quoted branch, entered at [i]; it stops one short of
    the end of the text. *)
Equations? quotedLoop (data : jsstring) (i : nat) (parsedColumn : jsstring)
  : jsstring * nat by wf (length data - i) lt :=
quotedLoop data i parsedColumn with decide (i < length data - 1) := {
  | right _ => (parsedColumn, length data)
  | left _ =>
      if negb (charIs (data !! i) dquote)
      then quotedLoop data (S i) (concatChar parsedColumn (data !! i))
      else if charIs (data !! (i + 1)) dquote
      then quotedLoop data (S (S i)) (concatChar parsedColumn (data !! i))
      else (parsedColumn, i + 1) }.
Proof. all: lia. Qed.

Definition parseColumn (data : jsstring) (index : nat) : jsstring * nat :=
  let insideQuotes := charIs (data !! index) dquote in
  if insideQuotes then quotedLoop data (index + 1) []
  else unquotedLoop data index [].

(** [if(parsedColumn != "") parsedRow.push(parsedColumn)]: the last field
    of a row is kept unless it is the empty string. *)
Definition endOfRow (parsedRow : list jsstring) (parsedColumn : jsstring)
  : list jsstring :=
  match parsedColumn with
  | [] => parsedRow
  | _ :: _ => parsedRow ++ [parsedColumn]
  end.

(** [parseRow] is a [while(true)] around a [switch] without a default
    case: [fuel] bounds the number of turns, [None] means the bound was
    reached. *)
Fixpoint parseRowLoop (fuel : nat) (data : jsstring) (index : nat)
    (parsedRow : list jsstring) : option (list jsstring * nat) :=
  match fuel with
  | 0 => None
  | S fuel =>
      let '(parsedColumn, endIndex) := parseColumn data index in
      match data !! endIndex with
      | None => Some (endOfRow parsedRow parsedColumn, endIndex)
      | Some c =>
          if N.eqb c comma then
            parseRowLoop fuel data (endIndex + 1) (parsedRow ++ [parsedColumn])
          else if N.eqb c newline then
            Some (endOfRow parsedRow parsedColumn, endIndex)
          else parseRowLoop fuel data index parsedRow
      end
  end.

Definition parseRow (fuel : nat) (data : jsstring) (index : nat)
  : option (list jsstring * nat) :=
  parseRowLoop fuel data index [].

(** The loop [while(i != content.length)] of [getDataFrom]; the result is
    the rejection or the rows read. *)
Fixpoint dataLoop (fuel : nat) (content : jsstring) (columns : list jsstring)
    (i : nat) (data : list (list jsstring)) : option (Error + list (list jsstring)) :=
  if Nat.eqb i (length content) then Some (inr data)
  else match fuel with
  | 0 => None
  | S fuel' =>
      match parseRow fuel content (i + 1) with
      | None => None
      | Some (parsedRow, i') =>
          if negb (Nat.eqb (length parsedRow) (length columns))
          then Some (inl (inconsistentRowLengths (length data + 1)
                            (length parsedRow) (length columns)))
          else dataLoop fuel' content columns i' (data ++ [parsedRow])
      end
  end.

(** The callback of [getDataFrom] from the header row to the end of the
    loop: the columns and rows the fields are then set to, or the
    rejection. *)
Definition parse (fuel : nat) (content : jsstring)
  : option (Error + list jsstring * list (list jsstring)) :=
  match parseRow fuel content 0 with
  | None => None
  | Some (columns, i) =>
      match dataLoop fuel content columns i [] with
      | None => None
      | Some (inl e) => Some (inl e)
      | Some (inr data) => Some (inr (columns, data))
      end
  end.

(** *** Methods and accessors

    A method runs on the fields of [this] and either completes normally or
    throws (a rejected promise, for [getDataFrom]). *)

Inductive completion (A : Type) :=
| Normal (a : A)
| Throw (e : Error).
Arguments Normal {A} a.
Arguments Throw {A} e.

Definition Method (A : Type) := Table -> completion A * Table.

Definition ret {A} (a : A) : Method A := fun this => (Normal a, this).

Definition bind {A B} (m : Method A) (k : A -> Method B) : Method B :=
  fun this =>
    match m this with
    | (Normal a, this') => k a this'
    | (Throw e, this') => (Throw e, this')
    end.

Notation "m >>- k" := (bind m (fun _ => k))
  (at level 62, right associativity).

(** The validation loop of the [data] setter, entered at index [i]. *)
Fixpoint checkRows (this : Table) (i : nat) (rows : list (list jsstring))
  : option Error :=
  match rows with
  | [] => None
  | r :: rest =>
      if negb (Nat.eqb (length r) (length (_columns this)))
      then Some (inconsistentRowLengths (i + 1) (length r) (length (_columns this)))
      else checkRows this (S i) rest
  end.

Definition set_data (rows : list (list jsstring)) : Method unit :=
  fun this =>
    match checkRows this 0 rows with
    | Some e => (Throw e, this)
    | None => (Normal tt, {| _columns := _columns this; _data := rows |})
    end.

Definition set_columns (columns : list jsstring) : Method unit :=
  fun this => (Normal tt, {| _columns := columns; _data := _data this |}).

(** The constructor overload taking column names and optional rows. *)
Definition constructorBody (columns : list jsstring)
    (rows : option (list (list jsstring))) : Method unit :=
  set_columns columns >>- set_data (default [] rows).

(** [new Table(columns, data)]: the object, unless the constructor throws. *)
Definition newTable (columns : list jsstring)
    (rows : option (list (list jsstring))) : Error + Table :=
  match constructorBody columns rows emptyTable with
  | (Normal _, this) => inr this
  | (Throw e, _) => inl e
  end.

(** The callback [getDataFrom] passes to [fs.readFile], run on what the
    read delivered; [None] when [fuel] ran out. *)
Definition getDataFrom (fuel : nat) (filename : jsstring)
    (error : option ErrnoException) (content : jsstring) (this : Table)
  : option (completion unit * Table) :=
  match error with
  | Some err => Some (Throw (cannotReadFile filename err), this)
  | None =>
      match parse fuel content with
      | None => None
      | Some (inl e) => Some (Throw e, this)
      | Some (inr (columns, rows)) =>
          Some (Normal tt, {| _columns := columns; _data := rows |})
      end
  end.

(** *** Files

    [saveTo] and the constructor overload that takes a file name go
    through [fs.writeFile] and [fs.readFile], which are given here: each
    reports an error or none, [writeFile] changes the files and [readFile]
    delivers a content. *)

Definition cannotWriteFile (filename : jsstring) (error : ErrnoException) : Error :=
  {| type := CannotAccessFile;
     description := Some (str "An error happened while trying to write to file " ++ filename);
     data := Some error;
     dataDescription := Some (str "The error") |}.

Section FileSystem.

Variable files : Type.
Variable writeFile : jsstring -> jsstring -> files -> option ErrnoException * files.
Variable readFile : jsstring -> files -> option ErrnoException * jsstring.

(** The promise of [saveTo], settled by the callback of [fs.writeFile]. *)
Definition saveTo (filename : jsstring) (this : Table) (fs : files)
  : completion unit * files :=
  let '(error, fs') := writeFile filename (toString this) fs in
  (match error with
   | Some err => Throw (cannotWriteFile filename err)
   | None => Normal tt
   end, fs').

(** [new Table(filename)]: the fields of the new object once the promise
    of [getDataFrom] is settled, and how it was settled. *)
Definition newTableFromFile (fuel : nat) (filename : jsstring) (fs : files)
  : option (completion unit * Table) :=
  let '(error, content) := readFile filename fs in
  getDataFrom fuel filename error content emptyTable.

End FileSystem.

(** ** Arrays as objects: the accessors and [cloneArray]

    An array is an object in the store, and a variable or a field holds a
    reference to it; strings are values. *)

Module Store.

Abbreviation loc := positive (only parsing).

Inductive value :=
| VString (s : jsstring)
| VArray (l : loc).

Abbreviation heap := (gmap positive (list value)) (only parsing).

(** [array.push(v)] *)
Definition push (h : heap) (array : loc) (v : value) : heap :=
  alter (fun elements => elements ++ [v]) array h.

(** The loop of [cloneArray] over the elements still to visit; [clone] is
    the recursive call. *)
Fixpoint cloneLoop (clone : heap -> loc -> option (heap * loc))
    (elements : list value) (clonedArray : loc) (h : heap) : option heap :=
  match elements with
  | [] => Some h
  | element :: rest =>
      match element with
      | VArray inner =>
          match clone h inner with
          | None => None
          | Some (h', copy) =>
              cloneLoop clone rest clonedArray (push h' clonedArray (VArray copy))
          end
      | VString _ => cloneLoop clone rest clonedArray (push h clonedArray element)
      end
  end.

(** [cloneArray(array)], to the given depth of nesting; [None] when the
    arrays nest deeper, or [array] is no array of the store. *)
Fixpoint cloneArray (depth : nat) (h : heap) (array : loc) : option (heap * loc) :=
  match depth with
  | 0 => None
  | S depth =>
      match h !! array with
      | None => None
      | Some elements =>
          let clonedArray := fresh (dom h) in
          match cloneLoop (cloneArray depth) elements clonedArray
                  (<[clonedArray := []]> h) with
          | None => None
          | Some h' => Some (h', clonedArray)
          end
      end
  end.

(** The fields of a table object. *)
Record TableObject := mkTableObject {
  columnsRef : loc;
  dataRef : loc
}.

Definition get_data (depth : nat) (h : heap) (this : TableObject)
  : option (heap * loc) :=
  cloneArray depth h (dataRef this).

Definition get_columns (depth : nat) (h : heap) (this : TableObject)
  : option (heap * loc) :=
  cloneArray depth h (columnsRef this).

(** What an array of strings, and an array of arrays of strings, holds. *)
Definition asString (v : value) : option jsstring :=
  match v with
  | VString s => Some s
  | VArray _ => None
  end.

Definition readStrings (h : heap) (array : loc) : option (list jsstring) :=
  match h !! array with
  | None => None
  | Some elements => mapM asString elements
  end.

Definition readRows (h : heap) (array : loc) : option (list (list jsstring)) :=
  match h !! array with
  | None => None
  | Some elements =>
      mapM (fun v => match v with
                     | VArray row => readStrings h row
                     | VString _ => None
                     end) elements
  end.

(** The arrays of a returned copy: the array itself and the arrays it
    holds. *)
Definition copyLocs (h : heap) (array : loc) : list loc :=
  array :: match h !! array with
           | None => []
           | Some elements =>
               flat_map (fun v => match v with
                                  | VArray row => [row]
                                  | VString _ => []
                                  end) elements
           end.

(** [frame h h']: the arrays of [h] are in [h'] as they are in [h]. *)
Definition frame (h h' : heap) : Prop :=
  forall l, l ∈ dom h -> h' !! l = h !! l.

(** [v] is a reference to an array of [h] that holds the strings [row], is
    no array of [h0] and is not [d]. *)
Definition isCopyOf (h0 h : heap) (d : loc) (v : value) (row : list jsstring) : Prop :=
  exists r, v = VArray r /\ (r ∉ dom h0) /\ r <> d /\ h !! r = Some (VString <$> row).

(** What a caller sees of the table in the store [h]: the strings its
    two fields lead to, and the strings the copies lead to that the two
    accessors return. *)
Definition tableReads (depth : nat) (h : heap) (this : TableObject)
    (columns : list jsstring) (rows : list (list jsstring)) : Prop :=
  readStrings h (columnsRef this) = Some columns
  /\ readRows h (dataRef this) = Some rows
  /\ (exists (h' : heap) c,
        get_columns (1 + depth) h this = Some (h', c)
        /\ readStrings h' c = Some columns)
  /\ (exists (h' : heap) d,
        get_data (2 + depth) h this = Some (h', d)
        /\ readRows h' d = Some rows).

(** [mutated locs h h']: [h'] is [h] but for the arrays [locs], which hold
    anything, or are gone. *)
Definition mutated (locs : list loc) (h h' : heap) : Prop :=
  forall l, l ∉ locs -> h' !! l = h !! l.

(** [v.length]: of a string its length, of an array the number of its
    elements. *)
Definition lengthOf (h : heap) (v : value) : option nat :=
  match v with
  | VString s => Some (length s)
  | VArray l => length <$> h !! l
  end.

(** The validation loop of the [data] setter over the elements of the
    array it is given, entered at index [i]; [None] for a reference to no
    array of the store. *)
Fixpoint checkElements (h : heap) (expected i : nat) (elements : list value)
  : option (option Error) :=
  match elements with
  | [] => Some None
  | v :: rest =>
      match lengthOf h v with
      | None => None
      | Some n =>
          if negb (Nat.eqb n expected)
          then Some (Some (inconsistentRowLengths (i + 1) n expected))
          else checkElements h expected (S i) rest
      end
  end.

(** The [data] setter: after the validation the field holds the reference
    it was given. *)
Definition set_data (h : heap) (this : TableObject) (data : loc)
  : option (Error + TableObject) :=
  match h !! columnsRef this, h !! data with
  | Some columns, Some elements =>
      match checkElements h (length columns) 0 elements with
      | None => None
      | Some (Some e) => Some (inl e)
      | Some None => Some (inr {| columnsRef := columnsRef this; dataRef := data |})
      end
  | _, _ => None
  end.

(** The [columns] setter. *)
Definition set_columns (this : TableObject) (columns : loc) : TableObject :=
  {| columnsRef := columns; dataRef := dataRef this |}.

(** [new Table(columns, data)]: the two field initialisers make an empty
    array each, then the setters run. *)
Definition newTable (h : heap) (columns data : loc)
  : option (heap * (Error + TableObject)) :=
  let c0 := fresh (dom h) in
  let h1 : heap := <[c0 := []]> h in
  let d0 := fresh (dom h1) in
  let h2 : heap := <[d0 := []]> h1 in
  match set_data h2 (set_columns {| columnsRef := c0; dataRef := d0 |} columns) data with
  | None => None
  | Some res => Some (h2, res)
  end.

Unset Elimination Schemes.

(** Strings in arrays nested to any depth. *)
Inductive tree :=
| Leaf (s : jsstring)
| Node (children : list tree).

Set Elimination Schemes.

(** What a value leads to, arrays followed to the given depth. *)
Fixpoint readTree (depth : nat) (h : heap) (v : value) : option tree :=
  match v with
  | VString s => Some (Leaf s)
  | VArray l =>
      match depth with
      | 0 => None
      | S depth =>
          match h !! l with
          | None => None
          | Some elements => Node <$> mapM (readTree depth h) elements
          end
      end
  end.

(** [agreeOn F h h']: the arrays [F] are in [h'] as they are in [h]. *)
Definition agreeOn (F : gset positive) (h h' : heap) : Prop :=
  forall l, l ∈ F -> h' !! l = h !! l.

End Store.

(** ** Notions of the specification *)

(** A comma or a newline. *)
Definition isSeparator (c : codeUnit) : bool := N.eqb c comma || N.eqb c newline.

(** Every double quote doubled, the other characters kept. *)
Definition escapeQuotes (s : jsstring) : jsstring :=
  flat_map (fun c => if N.eqb c dquote then [dquote; dquote] else [c]) s.

(** The field between double quotes, its own quotes doubled. *)
Definition wrapped (s : jsstring) : jsstring :=
  [dquote] ++ escapeQuotes s ++ [dquote].

(** A comma or a newline somewhere, or a double quote in front. *)
Definition mustQuote (s : jsstring) : bool :=
  existsb isSeparator s || charIs (s !! 0) dquote.

(** The encoded fields of a row with commas between them. *)
Definition joinFields (fields : list jsstring) : jsstring :=
  match fields with
  | [] => []
  | f :: rest =>
      convertToproperStr f ++ flat_map (fun g => comma :: convertToproperStr g) rest
  end.

(** What may follow a field: the end of the text, a comma or a newline. *)
Definition sepStart (post : jsstring) : Prop :=
  match post with
  | [] => True
  | c :: _ => isSeparator c = true
  end.

(** What [parseRow] returns for the fields it was given in encoded form:
    an empty last field is left out. *)
Fixpoint keptFields (r : list jsstring) : list jsstring :=
  match r with
  | [] => []
  | f :: rest =>
      match rest with
      | [] => endOfRow [] f
      | _ :: _ => f :: keptFields rest
      end
  end.

(** What may follow a row: the end of the text or a newline. *)
Definition rowEnd (post : jsstring) : Prop :=
  match post with
  | [] => True
  | c :: _ => c = newline
  end.

(** The row the newline adds, and what becomes of it. *)
Definition afterNewline (columns : list jsstring) (rows : list (list jsstring))
  : Error + list (list jsstring) :=
  if Nat.eqb (length columns) 0 then inr (rows ++ [[]])
  else inl (inconsistentRowLengths (length rows + 1) 0 (length columns)).

(** The parts with the separator between them. *)
Fixpoint joinWith (sep : jsstring) (parts : list jsstring) : jsstring :=
  match parts with
  | [] => []
  | p :: rest =>
      match rest with
      | [] => p
      | _ :: _ => p ++ sep ++ joinWith sep rest
      end
  end.

(** [rowsRead content i rows j]: entered with its variable at [i], the
    loop of [getDataFrom] reads [rows], one call of [parseRow] each, and
    has its variable at [j] after them. *)
Inductive rowsRead (content : jsstring) : nat -> list (list jsstring) -> nat -> Prop :=
| rowsRead_nil i : rowsRead content i [] i
| rowsRead_cons i fuel row i' rows j :
    i <> length content ->
    parseRow fuel content (i + 1) = Some (row, i') ->
    rowsRead content i' rows j ->
    rowsRead content i (row :: rows) j.

(** Every row has as many fields as the table has columns. *)
Definition wellShaped (this : Table) : Prop :=
  Forall (fun r => length r = length (_columns this)) (_data this).

(** The pieces of a text between the occurrences of a separator, as
    [String.prototype.split] gives them. *)
Fixpoint splitOn (sep : codeUnit) (s : jsstring) : list jsstring :=
  match s with
  | [] => [[]]
  | c :: rest =>
      if N.eqb c sep then [] :: splitOn sep rest
      else match splitOn sep rest with
           | [] => [[c]]
           | piece :: pieces => (c :: piece) :: pieces
           end
  end.

(** The columns and rows of a text taken line by line and comma by comma:
    the first line is the header. *)
Definition splitTable (content : jsstring) : list jsstring * list (list jsstring) :=
  match splitOn newline content with
  | [] => ([], [])
  | header :: lines => (splitOn comma header, map (splitOn comma) lines)
  end.

(** [fieldStart data k]: [k] is a position where a parse of [data] calls
    [parseColumn]: the start of the text, or the position after a comma or
    a newline at which a field read from such a position ended. *)
Inductive fieldStart (data : jsstring) : nat -> Prop :=
| fieldStart_first : fieldStart data 0
| fieldStart_next k p e c :
    fieldStart data k ->
    parseColumn data k = (p, e) ->
    data !! e = Some c ->
    c = comma \/ c = newline ->
    fieldStart data (e + 1).

(** The text does not end inside a quoted field that is not closed: a
    quoted field that is read up to the end of the text is a string
    between double quotes, with its own double quotes doubled. *)
Definition quotesClosed (T : jsstring) : Prop :=
  forall k p,
    fieldStart T k -> T !! k = Some dquote ->
    parseColumn T k = (p, length T) ->
    exists f, drop k T = wrapped f.

(** ** Unfolding the loops *)

Lemma unquotedLoop_eq data i acc :
  unquotedLoop data i acc =
  if decide (i < length data) then
    if charIs (data !! i) comma || charIs (data !! i) newline
    then (acc, i)
    else unquotedLoop data (S i) (concatChar acc (data !! i))
  else (acc, length data).
Proof. rewrite unquotedLoop_equation_1. destruct (decide _); reflexivity. Qed.

Lemma quotedLoop_eq data i acc :
  quotedLoop data i acc =
  if decide (i < length data - 1) then
    if negb (charIs (data !! i) dquote)
    then quotedLoop data (S i) (concatChar acc (data !! i))
    else if charIs (data !! (i + 1)) dquote
    then quotedLoop data (S (S i)) (concatChar acc (data !! i))
    else (acc, i + 1)
  else (acc, length data).
Proof. rewrite quotedLoop_equation_1. destruct (decide _); reflexivity. Qed.

(** ** The serializer, field by field *)

Lemma fold_convertStep s b acc :
  fold_left convertStep s (b, acc) = (b || existsb isSeparator s, acc ++ escapeQuotes s).
Proof.
  revert b acc. induction s as [|c s IH]; intros b acc; simpl.
  - by rewrite orb_false_r, app_nil_r.
  - unfold isSeparator.
    destruct (N.eqb_spec c dquote) as [->|Hq]; simpl.
    + rewrite IH. by rewrite <- app_assoc.
    + destruct (N.eqb_spec c comma) as [->|Hc]; simpl.
      * rewrite IH. rewrite orb_true_r. simpl. by rewrite <- app_assoc.
      * destruct (N.eqb_spec c newline) as [->|Hn]; simpl;
          rewrite IH, <- app_assoc; simpl; [by rewrite orb_true_r | done].
Qed.

Lemma convertToproperStr_spec s :
  convertToproperStr s = if mustQuote s then wrapped s else s.
Proof.
  unfold convertToproperStr, mustQuote, wrapped.
  rewrite fold_convertStep, orb_comm. by destruct (_ || _).
Qed.

Lemma length_escapeQuotes s : length s <= length (escapeQuotes s).
Proof.
  induction s as [|c s IH]; simpl; [lia|].
  rewrite length_app. destruct (N.eqb c dquote); simpl; lia.
Qed.

Lemma wrapped_neq s : wrapped s <> s.
Proof.
  intros H. apply (f_equal length) in H. unfold wrapped in H.
  rewrite !length_app in H. simpl in H.
  pose proof (length_escapeQuotes s). lia.
Qed.

Lemma existsb_isSeparator s :
  existsb isSeparator s = true <-> comma ∈ s \/ newline ∈ s.
Proof.
  rewrite existsb_exists. unfold isSeparator. split.
  - intros (c & Hin & Hc). apply list_elem_of_In in Hin.
    apply orb_true_iff in Hc as [Hc|Hc]; apply N.eqb_eq in Hc; subst; auto.
  - intros [H|H]; apply list_elem_of_In in H.
    + exists comma. by split.
    + exists newline. by split.
Qed.

Lemma charIs_true o k : charIs o k = true <-> o = Some k.
Proof.
  destruct o as [x|]; simpl; [|split; discriminate].
  rewrite N.eqb_eq. split; [by intros ->|by intros [= ->]].
Qed.

Lemma mustQuote_true s :
  mustQuote s = true <-> comma ∈ s \/ newline ∈ s \/ s !! 0 = Some dquote.
Proof.
  unfold mustQuote. rewrite orb_true_iff, existsb_isSeparator, charIs_true. tauto.
Qed.

Lemma fieldsLoop_S i fields acc :
  fieldsLoop (S i) fields acc
  = acc ++ flat_map (fun g => comma :: convertToproperStr g) fields.
Proof.
  revert i acc. induction fields as [|f rest IH]; intros i acc; simpl.
  - by rewrite app_nil_r.
  - rewrite IH. by rewrite <- !app_assoc.
Qed.

Lemma fieldsLoop_0 fields acc : fieldsLoop 0 fields acc = acc ++ joinFields fields.
Proof.
  destruct fields as [|f rest]; simpl; [by rewrite app_nil_r|].
  rewrite fieldsLoop_S. by rewrite <- !app_assoc.
Qed.

Lemma rowsLoop_S i rows acc :
  rowsLoop (S i) rows acc = acc ++ flat_map (fun r => newline :: joinFields r) rows.
Proof.
  revert i acc. induction rows as [|r rest IH]; intros i acc; simpl.
  - by rewrite app_nil_r.
  - rewrite IH, fieldsLoop_0. by rewrite <- !app_assoc.
Qed.

Lemma toString_spec this :
  toString this
  = joinFields (_columns this) ++ flat_map (fun r => newline :: joinFields r) (_data this).
Proof.
  unfold toString. rewrite fieldsLoop_0. simpl.
  destruct (_data this) as [|r rest]; simpl; [by rewrite app_nil_r|].
  rewrite rowsLoop_S, fieldsLoop_0. by rewrite <- !app_assoc.
Qed.

(** ** Reading back one encoded field *)

Lemma isSeparator_not_dquote c : isSeparator c = true -> N.eqb c dquote = false.
Proof.
  unfold isSeparator. intros H. apply orb_true_iff in H as [H|H];
    apply N.eqb_eq in H; subst; reflexivity.
Qed.

Lemma app_cons_shift {A} (pre : list A) c rest : pre ++ c :: rest = (pre ++ [c]) ++ rest.
Proof. by rewrite <- app_assoc. Qed.

Lemma length_snoc {A} (pre : list A) c : length (pre ++ [c]) = S (length pre).
Proof. rewrite length_app. simpl. lia. Qed.

Lemma lookup_next {A} (pre : list A) x y rest i :
  i = length pre -> (pre ++ x :: y :: rest) !! (i + 1) = Some y.
Proof.
  intros ->. rewrite app_cons_shift. apply list_lookup_middle.
  rewrite length_snoc. lia.
Qed.

Ltac in_range :=
  match goal with
  | |- context [decide (?i < ?n)] =>
      destruct (decide (i < n)) as [_|?Hge];
      [| exfalso; revert Hge; rewrite ?length_app; simpl;
         rewrite ?length_app; simpl; lia]
  end.

Lemma unquotedLoop_scan f : forall pre post acc i,
  i = length pre -> existsb isSeparator f = false -> sepStart post ->
  unquotedLoop (pre ++ f ++ post) i acc = (acc ++ f, i + length f).
Proof.
  induction f as [|c f IH]; intros pre post acc i Hi Hf Hpost; simpl in *.
  - rewrite unquotedLoop_eq, app_nil_r, Nat.add_0_r.
    destruct post as [|d rest]; simpl in *.
    + rewrite app_nil_r. destruct (decide _) as [Hlt|_]; [lia|by subst].
    + in_range. rewrite list_lookup_middle by done. simpl.
      unfold isSeparator in Hpost. by rewrite Hpost.
  - apply orb_false_iff in Hf as [Hc Hf].
    rewrite unquotedLoop_eq, list_lookup_middle by done. simpl.
    in_range. unfold isSeparator in Hc. rewrite Hc.
    rewrite app_cons_shift, (IH (pre ++ [c])); try done.
    + rewrite <- app_assoc. simpl. f_equal. lia.
    + rewrite length_snoc. lia.
Qed.

Lemma quotedLoop_scan f : forall pre post acc i,
  i = length pre -> sepStart post ->
  quotedLoop (pre ++ escapeQuotes f ++ dquote :: post) i acc
  = (acc ++ f, i + length (escapeQuotes f) + 1).
Proof.
  induction f as [|c f IH]; intros pre post acc i Hi Hpost; simpl in *.
  - rewrite quotedLoop_eq, list_lookup_middle by done. simpl.
    rewrite app_nil_r, Nat.add_0_r.
    destruct post as [|d rest]; simpl in *.
    + destruct (decide _) as [Hlt|_]; [rewrite length_snoc in Hlt; lia|].
      rewrite length_snoc. f_equal. lia.
    + in_range. rewrite lookup_next by done. simpl.
      by rewrite (isSeparator_not_dquote d Hpost).
  - destruct (N.eqb_spec c dquote) as [->|Hq]; simpl.
    + rewrite quotedLoop_eq, list_lookup_middle, lookup_next by done. simpl.
      in_range.
      rewrite (app_cons_shift pre dquote), app_cons_shift.
      rewrite (IH ((pre ++ [dquote]) ++ [dquote])); try done.
      * rewrite <- app_assoc. simpl. f_equal. lia.
      * rewrite !length_snoc. lia.
    + rewrite quotedLoop_eq, list_lookup_middle by done. simpl.
      in_range. apply N.eqb_neq in Hq. rewrite Hq. simpl.
      rewrite app_cons_shift, (IH (pre ++ [c])); try done.
      * rewrite <- app_assoc. simpl. f_equal. lia.
      * rewrite length_snoc. lia.
Qed.

Lemma parseColumn_encoded f pre post i :
  i = length pre -> sepStart post ->
  parseColumn (pre ++ convertToproperStr f ++ post) i
  = (f, i + length (convertToproperStr f)).
Proof.
  intros Hi Hpost. rewrite convertToproperStr_spec. unfold parseColumn.
  destruct (mustQuote f) eqn:Hm.
  - unfold wrapped. simpl. rewrite list_lookup_middle by done. simpl.
    rewrite <- (app_assoc (escapeQuotes f)), app_cons_shift. simpl.
    rewrite (quotedLoop_scan f (pre ++ [dquote])); try done.
    + rewrite length_app. simpl. f_equal. lia.
    + rewrite length_snoc. lia.
  - unfold mustQuote in Hm. apply orb_false_iff in Hm as [Hsep Hhead].
    assert (charIs ((pre ++ f ++ post) !! i) dquote = false) as ->.
    { destruct f as [|c f]; simpl in *.
      - destruct post as [|d rest]; simpl in *.
        + rewrite app_nil_r, lookup_ge_None_2 by lia. done.
        + rewrite list_lookup_middle by done. simpl.
          by apply isSeparator_not_dquote.
      - rewrite list_lookup_middle by done. done. }
    by rewrite (unquotedLoop_scan f pre).
Qed.

Lemma quotedLoop_closed f : forall pre post acc i,
  i = length pre -> post !! 0 <> Some dquote ->
  quotedLoop (pre ++ escapeQuotes f ++ dquote :: post) i acc
  = (acc ++ f, i + length (escapeQuotes f) + 1).
Proof.
  induction f as [|c f IH]; intros pre post acc i Hi Hpost; simpl in *.
  - rewrite quotedLoop_eq, list_lookup_middle by done. simpl.
    rewrite app_nil_r, Nat.add_0_r.
    destruct post as [|d rest]; simpl in *.
    + destruct (decide _) as [Hlt|_]; [rewrite length_snoc in Hlt; lia|].
      rewrite length_snoc. f_equal. lia.
    + in_range. rewrite lookup_next by done. simpl.
      destruct (N.eqb_spec d dquote) as [->|_]; [by destruct Hpost|done].
  - destruct (N.eqb_spec c dquote) as [->|Hq]; simpl.
    + rewrite quotedLoop_eq, list_lookup_middle, lookup_next by done. simpl.
      in_range.
      rewrite (app_cons_shift pre dquote), app_cons_shift.
      rewrite (IH ((pre ++ [dquote]) ++ [dquote])); try done.
      * rewrite <- app_assoc. simpl. f_equal. lia.
      * rewrite !length_snoc. lia.
    + rewrite quotedLoop_eq, list_lookup_middle by done. simpl.
      in_range. apply N.eqb_neq in Hq. rewrite Hq. simpl.
      rewrite app_cons_shift, (IH (pre ++ [c])); try done.
      * rewrite <- app_assoc. simpl. f_equal. lia.
      * rewrite length_snoc. lia.
Qed.

Lemma parseColumn_wrapped f pre post :
  post !! 0 <> Some dquote ->
  parseColumn (pre ++ wrapped f ++ post) (length pre)
  = (f, length pre + length (wrapped f)).
Proof.
  intros Hpost. unfold parseColumn, wrapped. simpl.
  rewrite list_lookup_middle by done. simpl.
  rewrite <- (app_assoc (escapeQuotes f)), app_cons_shift. simpl.
  rewrite (quotedLoop_closed f (pre ++ [dquote])); try done.
  - rewrite length_app. simpl. f_equal. lia.
  - rewrite length_snoc. lia.
Qed.

(** ** Reading back one encoded row *)

Lemma rowEnd_sepStart post : rowEnd post -> sepStart post.
Proof. destruct post as [|c rest]; simpl; [done|by intros ->]. Qed.

Lemma endOfRow_app acc f : endOfRow acc f = acc ++ endOfRow [] f.
Proof. destruct f; simpl; [by rewrite app_nil_r|done]. Qed.

Lemma keptFields_id r : last r <> Some [] -> keptFields r = r.
Proof.
  induction r as [|f rest IH]; [done|].
  destruct rest as [|g rest]; simpl in *.
  - intros H. destruct f; [by destruct H|done].
  - intros H. f_equal. by apply IH.
Qed.

Lemma keptFields_fixed r : keptFields r = r <-> last r <> Some [].
Proof.
  split; [|apply keptFields_id].
  induction r as [|f rest IH]; [done|].
  destruct rest as [|g rest]; simpl.
  - destruct f; [discriminate|done].
  - intros [= H]. by apply IH.
Qed.

Lemma parseRowLoop_end fuel data index acc p e :
  parseColumn data index = (p, e) ->
  rowEnd (drop e data) ->
  parseRowLoop (S fuel) data index acc = Some (endOfRow acc p, e).
Proof.
  intros Hp Hend. simpl. rewrite Hp.
  destruct (data !! e) as [c|] eqn:Hc; [|done].
  apply drop_S in Hc. rewrite Hc in Hend. simpl in Hend. by subst c.
Qed.

Lemma parseRowLoop_comma fuel data index acc p e :
  parseColumn data index = (p, e) ->
  data !! e = Some comma ->
  parseRowLoop (S fuel) data index acc = parseRowLoop fuel data (e + 1) (acc ++ [p]).
Proof. intros Hp Hc. simpl. by rewrite Hp, Hc. Qed.

Lemma parseRowLoop_fields rest : forall f pre post acc i fuel,
  i = length pre -> rowEnd post -> length rest < fuel ->
  parseRowLoop fuel
    (pre ++ convertToproperStr f
         ++ flat_map (fun g => comma :: convertToproperStr g) rest ++ post) i acc
  = Some (acc ++ keptFields (f :: rest),
          i + length (convertToproperStr f
                      ++ flat_map (fun g => comma :: convertToproperStr g) rest)).
Proof.
  induction rest as [|g rest IH]; intros f pre post acc i fuel Hi Hpost Hfuel;
    (destruct fuel as [|fuel]; [lia|]).
  - simpl flat_map. rewrite app_nil_r. simpl app at 2.
    rewrite (parseRowLoop_end _ _ _ _ f (i + length (convertToproperStr f))).
    + by rewrite endOfRow_app.
    + by apply parseColumn_encoded, rowEnd_sepStart.
    + rewrite app_assoc, drop_app_length'; [done|]. rewrite length_app. lia.
  - set (tl := flat_map (fun g => comma :: convertToproperStr g) rest) in *.
    assert (flat_map (fun g => comma :: convertToproperStr g) (g :: rest)
            = comma :: convertToproperStr g ++ tl) as -> by done.
    assert ((comma :: convertToproperStr g ++ tl) ++ post
            = comma :: convertToproperStr g ++ tl ++ post) as ->
      by (simpl; by rewrite <- app_assoc).
    rewrite (parseRowLoop_comma _ _ _ _ f (i + length (convertToproperStr f))).
    + assert (pre ++ convertToproperStr f ++ comma :: convertToproperStr g ++ tl ++ post
              = ((pre ++ convertToproperStr f) ++ [comma])
                  ++ convertToproperStr g ++ tl ++ post) as ->
        by (by rewrite <- !app_assoc).
      rewrite IH; try done.
      * f_equal. f_equal; [by rewrite <- app_assoc|].
        rewrite !length_app. simpl. rewrite length_app. lia.
      * rewrite !length_app. simpl. lia.
      * simpl in Hfuel. lia.
    + by apply parseColumn_encoded.
    + rewrite app_assoc. apply list_lookup_middle. rewrite length_app. lia.
Qed.

Lemma parseRowLoop_joined r pre post acc i fuel :
  i = length pre -> rowEnd post -> length r < fuel ->
  parseRowLoop fuel (pre ++ joinFields r ++ post) i acc
  = Some (acc ++ keptFields r, i + length (joinFields r)).
Proof.
  intros Hi Hpost Hfuel. destruct r as [|f rest].
  - destruct fuel as [|fuel]; [simpl in Hfuel; lia|]. simpl app.
    rewrite (parseRowLoop_end _ _ _ _ [] i).
    + simpl. by rewrite app_nil_r, Nat.add_0_r.
    + pose proof (parseColumn_encoded [] pre post i Hi (rowEnd_sepStart _ Hpost)) as H.
      simpl in H. by rewrite Nat.add_0_r in H.
    + rewrite drop_app_length'; done.
  - unfold joinFields. rewrite <- app_assoc. apply parseRowLoop_fields; try done.
    simpl in Hfuel. lia.
Qed.

(** ** Reading back the rows of a serialized table *)

Lemma dataLoop_done fuel content columns i data :
  i = length content -> dataLoop fuel content columns i data = Some (inr data).
Proof. intros ->. destruct fuel; simpl; by rewrite Nat.eqb_refl. Qed.

Lemma dataLoop_step fuel content columns i data row i' :
  i <> length content ->
  parseRow (S fuel) content (i + 1) = Some (row, i') ->
  dataLoop (S fuel) content columns i data
  = if negb (Nat.eqb (length row) (length columns))
    then Some (inl (inconsistentRowLengths (length data + 1) (length row)
                      (length columns)))
    else dataLoop fuel content columns i' (data ++ [row]).
Proof.
  intros Hi Hrow. cbn [dataLoop]. apply Nat.eqb_neq in Hi. by rewrite Hi, Hrow.
Qed.

Lemma dataLoop_rows rows : forall pre columns i data fuel,
  i = length pre ->
  (forall r, r ∈ rows -> length rows + length r < fuel) ->
  dataLoop fuel (pre ++ flat_map (fun r => newline :: joinFields r) rows) columns i data
  = Some match checkRows (mkTable columns []) (length data) (map keptFields rows) with
         | Some e => inl e
         | None => inr (data ++ map keptFields rows)
         end.
Proof.
  induction rows as [|r rest IH]; intros pre columns i data fuel Hi Hfuel.
  - simpl. rewrite !app_nil_r. by apply dataLoop_done.
  - pose proof (Hfuel r ltac:(left)) as Hr. simpl in Hr.
    destruct fuel as [|fuel]; [lia|].
    set (tl := flat_map (fun r => newline :: joinFields r) rest) in *.
    assert (flat_map (fun r => newline :: joinFields r) (r :: rest)
            = newline :: joinFields r ++ tl) as -> by done.
    rewrite (dataLoop_step _ _ _ _ _ (keptFields r)
               (i + 1 + length (joinFields r))).
    + cbn [map checkRows _columns].
      destruct (negb _); [done|].
      assert (pre ++ newline :: joinFields r ++ tl
              = (pre ++ newline :: joinFields r) ++ tl) as ->
        by (by rewrite <- app_assoc).
      rewrite IH.
      * rewrite length_snoc, <- app_assoc. done.
      * rewrite length_app. simpl. lia.
      * intros r' Hr'. pose proof (Hfuel r' ltac:(by right)). simpl in *. lia.
    + rewrite !length_app. simpl. lia.
    + unfold parseRow. rewrite app_cons_shift.
      rewrite parseRowLoop_joined; try done.
      * rewrite length_snoc. lia.
      * subst tl. destruct rest; simpl; done.
      * lia.
Qed.

(** What [parse] makes of a serialized table, whatever its shape. *)
Lemma parse_toString this fuel :
  length (_columns this) < fuel ->
  (forall r, r ∈ _data this -> length (_data this) + length r < fuel) ->
  parse fuel (toString this)
  = Some match checkRows (mkTable (keptFields (_columns this)) []) 0
                 (map keptFields (_data this)) with
         | Some e => inl e
         | None => inr (keptFields (_columns this), map keptFields (_data this))
         end.
Proof.
  intros Hc Hr. rewrite toString_spec. unfold parse, parseRow.
  set (tl := flat_map (fun r => newline :: joinFields r) (_data this)).
  pose proof (parseRowLoop_joined (_columns this) [] tl [] 0 fuel eq_refl) as H.
  simpl in H. rewrite H; [|subst tl; destruct (_data this); simpl; done|done].
  pose proof (dataLoop_rows (_data this) (joinFields (_columns this))
                (keptFields (_columns this)) (length (joinFields (_columns this)))
                [] fuel eq_refl Hr) as H'.
  fold tl in H'. rewrite H'. simpl. by destruct (checkRows _ _ _).
Qed.

(** ** Fuel and positions *)

Lemma parseRowLoop_mono fuel : forall data index acc x fuel',
  parseRowLoop fuel data index acc = Some x -> fuel <= fuel' ->
  parseRowLoop fuel' data index acc = Some x.
Proof.
  induction fuel as [|fuel IH]; intros data index acc x fuel' H Hle; [done|].
  destruct fuel' as [|fuel']; [lia|]. simpl in *.
  destruct (parseColumn data index) as [p e].
  destruct (data !! e) as [c|]; [|done].
  destruct (N.eqb c comma); [apply IH; [done|lia]|].
  destruct (N.eqb c newline); [done|]. apply IH; [done|lia].
Qed.

Lemma dataLoop_mono fuel : forall content columns i data x fuel',
  dataLoop fuel content columns i data = Some x -> fuel <= fuel' ->
  dataLoop fuel' content columns i data = Some x.
Proof.
  induction fuel as [|fuel IH]; intros content columns i data x fuel' H Hle.
  - simpl in H. destruct (Nat.eqb_spec i (length content)) as [Hi|]; [|done].
    by rewrite dataLoop_done.
  - destruct fuel' as [|fuel']; [lia|]. cbn [dataLoop] in *.
    destruct (Nat.eqb i (length content)); [done|].
    unfold parseRow in *.
    destruct (parseRowLoop (S fuel) content (i + 1) []) as [[row i']|] eqn:Hrow;
      [|done].
    rewrite (parseRowLoop_mono _ _ _ _ _ (S fuel') Hrow) by lia.
    destruct (negb _); [done|]. apply IH; [done|lia].
Qed.

Lemma parse_mono fuel fuel' content x :
  parse fuel content = Some x -> fuel <= fuel' -> parse fuel' content = Some x.
Proof.
  unfold parse, parseRow. intros H Hle.
  destruct (parseRowLoop fuel content 0 []) as [[columns i]|] eqn:Hc; [|done].
  rewrite (parseRowLoop_mono _ _ _ _ _ fuel' Hc) by done.
  destruct (dataLoop fuel content columns i []) as [res|] eqn:Hd; [|done].
  by rewrite (dataLoop_mono _ _ _ _ _ _ fuel' Hd).
Qed.

Lemma unquotedLoop_bounds data n : forall i acc p e,
  length data - i <= n ->
  unquotedLoop data i acc = (p, e) -> i <= length data ->
  i <= e <= length data.
Proof.
  induction n as [|n IH]; intros i acc p e Hn H Hi; rewrite unquotedLoop_eq in H;
    destruct (decide _) as [Hlt|Hge]; try lia; try (injection H as <- <-; lia).
  destruct (_ || _); [injection H as <- <-; lia|].
  apply IH in H; lia.
Qed.

Lemma quotedLoop_bounds data n : forall i acc p e,
  length data - i <= n ->
  quotedLoop data i acc = (p, e) -> i <= length data ->
  i <= e <= length data.
Proof.
  induction n as [|n IH]; intros i acc p e Hn H Hi; rewrite quotedLoop_eq in H;
    destruct (decide _) as [Hlt|Hge]; try lia; try (injection H as <- <-; lia).
  destruct (negb _); [apply IH in H; lia|].
  destruct (charIs _ _); [apply IH in H; lia|].
  injection H as <- <-; lia.
Qed.

Lemma parseColumn_bounds data index p e :
  parseColumn data index = (p, e) -> index <= length data ->
  index <= e <= length data.
Proof.
  unfold parseColumn. intros H Hi.
  destruct (charIs (data !! index) dquote) eqn:Hq.
  - apply charIs_true, lookup_lt_Some in Hq.
    apply (quotedLoop_bounds _ (length data)) in H; lia.
  - apply (unquotedLoop_bounds _ (length data)) in H; lia.
Qed.

Lemma parseRowLoop_bounds fuel : forall data index acc row e,
  parseRowLoop fuel data index acc = Some (row, e) -> index <= length data ->
  index <= e <= length data.
Proof.
  induction fuel as [|fuel IH]; intros data index acc row e H Hi; [done|].
  simpl in H. destruct (parseColumn data index) as [p e0] eqn:Hp.
  apply parseColumn_bounds in Hp; [|done].
  destruct (data !! e0) as [c|] eqn:Hc; [|injection H as <- <-; lia].
  apply lookup_lt_Some in Hc.
  destruct (N.eqb c comma); [apply IH in H; lia|].
  destruct (N.eqb c newline); [injection H as <- <-; lia|].
  apply IH in H; lia.
Qed.

(** A turn of [parseRow] that finds none of the three cases of its
    [switch] leaves [index] and [parsedRow] as they were: every later
    turn is the same turn. *)
Lemma parseRowLoop_stuck data index acc p e c :
  parseColumn data index = (p, e) ->
  data !! e = Some c -> N.eqb c comma = false -> N.eqb c newline = false ->
  forall fuel, parseRowLoop fuel data index acc = None.
Proof.
  intros Hp Hc Hcomma Hnl fuel. induction fuel as [|fuel IH]; [done|].
  simpl. by rewrite Hp, Hc, Hcomma, Hnl.
Qed.

(** ** A newline after a text

    What [parseColumn], [parseRow] and the loop over the rows do on a text
    followed by a newline, for a text that does not end inside a quoted
    field that is not closed. *)

Lemma unquotedLoop_newline T n : forall i acc,
  length T - i <= n -> i <= length T ->
  unquotedLoop (T ++ [newline]) i acc = unquotedLoop T i acc.
Proof.
  induction n as [|n IH]; intros i acc Hn Hi;
    rewrite (unquotedLoop_eq (T ++ [newline])), (unquotedLoop_eq T);
    rewrite length_snoc;
    (destruct (decide (i < S (length T))) as [_|?]; [|lia]);
    destruct (decide (i < length T)) as [Hlt|Hge]; try lia.
  - assert (i = length T) as -> by lia. by rewrite list_lookup_middle.
  - rewrite lookup_app_l by done. destruct (_ || _); [done|]. apply IH; lia.
  - assert (i = length T) as -> by lia. by rewrite list_lookup_middle.
Qed.

Lemma charIs_dquote_free (T : jsstring) i : dquote ∉ T -> charIs (T !! i) dquote = false.
Proof.
  intros Hfree. destruct (T !! i) as [c|] eqn:Hc; [|done]. simpl.
  apply N.eqb_neq. intros ->. apply Hfree. by eapply list_elem_of_lookup_2.
Qed.

Lemma quotesClosed_free (T : jsstring) : dquote ∉ T -> quotesClosed T.
Proof.
  intros Hfree k p _ Hk _. destruct Hfree. by eapply list_elem_of_lookup_2.
Qed.

Lemma quotedLoop_newline_early (T : jsstring) n : forall i acc p e,
  length T - i <= n ->
  quotedLoop T i acc = (p, e) -> e < length T ->
  quotedLoop (T ++ [newline]) i acc = (p, e).
Proof.
  induction n as [|n IH]; intros i acc p e Hn H He;
    rewrite quotedLoop_eq in H; rewrite (quotedLoop_eq (T ++ [newline]));
    rewrite length_snoc;
    destruct (decide (i < length T - 1)) as [Hlt|Hge];
    try lia; try (injection H as <- <-; lia).
  destruct (decide (i < S (length T) - 1)) as [_|?]; [|lia].
  rewrite !(lookup_app_l T) by lia.
  destruct (negb _); [apply IH; [lia|done..]|].
  destruct (charIs _ _); [apply IH; [lia|done..]|done].
Qed.

Lemma parseColumn_newline_closed (T : jsstring) k :
  quotesClosed T -> fieldStart T k -> k <= length T ->
  parseColumn (T ++ [newline]) k = parseColumn T k.
Proof.
  intros Hclosed Hfs Hk.
  destruct (charIs (T !! k) dquote) eqn:Hq.
  - apply charIs_true in Hq. apply lookup_lt_Some in Hq as Hlt.
    destruct (parseColumn T k) as [p e] eqn:Hp.
    pose proof (parseColumn_bounds _ _ _ _ Hp Hk) as Hb.
    destruct (decide (e < length T)) as [He|He].
    + unfold parseColumn in *. rewrite lookup_app_l by done.
      rewrite Hq in *. simpl in *.
      by apply (quotedLoop_newline_early T (length T)); [lia|..].
    + assert (e = length T) as -> by lia.
      destruct (Hclosed k p Hfs Hq Hp) as [f Hf].
      assert (T = take k T ++ wrapped f) as HT by (by rewrite <- Hf, take_drop).
      assert (length (take k T) = k) as Hlen by (rewrite length_take; lia).
      pose proof (parseColumn_wrapped f (take k T) []) as H0.
      rewrite app_nil_r, <- HT, Hlen, Hp in H0.
      rewrite HT at 1. rewrite <- app_assoc.
      pose proof (parseColumn_wrapped f (take k T) [newline]) as H1.
      rewrite Hlen in H1. rewrite H1 by done. by rewrite H0.
  - unfold parseColumn.
    assert (charIs ((T ++ [newline]) !! k) dquote = false) as ->.
    { destruct (decide (k < length T)) as [Hlt|Hge].
      - by rewrite lookup_app_l.
      - assert (k = length T) as -> by lia. by rewrite list_lookup_middle. }
    rewrite Hq. by apply (unquotedLoop_newline T (length T)); [lia|].
Qed.

Lemma parseRowLoop_newline_closed fuel : forall (T : jsstring) k acc,
  quotesClosed T -> fieldStart T k -> k <= length T ->
  parseRowLoop fuel (T ++ [newline]) k acc = parseRowLoop fuel T k acc.
Proof.
  induction fuel as [|fuel IH]; intros T k acc Hclosed Hfs Hk; [done|].
  simpl. rewrite parseColumn_newline_closed by done.
  destruct (parseColumn T k) as [p e] eqn:Hp.
  pose proof (parseColumn_bounds _ _ _ _ Hp Hk) as Hb.
  destruct (decide (e < length T)) as [Hlt|Hge].
  - rewrite lookup_app_l by done.
    destruct (T !! e) as [c|] eqn:Hc; [|done].
    destruct (N.eqb_spec c comma) as [->|_].
    + apply IH; [done| |lia]. eapply fieldStart_next; eauto.
    + destruct (N.eqb c newline); [done|]. by apply IH.
  - assert (e = length T) as -> by lia.
    rewrite list_lookup_middle by done. simpl.
    by rewrite lookup_ge_None_2.
Qed.

Lemma parseRowLoop_fieldStart fuel : forall (T : jsstring) k acc row e,
  fieldStart T k -> parseRowLoop fuel T k acc = Some (row, e) ->
  e < length T -> fieldStart T (e + 1).
Proof.
  induction fuel as [|fuel IH]; intros T k acc row e Hfs H He; [done|].
  simpl in H. destruct (parseColumn T k) as [p e0] eqn:Hp.
  destruct (T !! e0) as [c|] eqn:Hc.
  - destruct (N.eqb_spec c comma) as [->|_].
    + eapply IH; [|exact H|done]. eapply fieldStart_next; eauto.
    + destruct (N.eqb_spec c newline) as [->|_]; [|by eapply IH].
      injection H as <- <-. eapply fieldStart_next; eauto.
  - injection H as <- <-. apply lookup_ge_None in Hc. lia.
Qed.

Lemma dataLoop_trailing fuel (T : jsstring) columns i data :
  i = length T ->
  dataLoop (S fuel) (T ++ [newline]) columns i data = Some (afterNewline columns data).
Proof.
  intros ->.
  rewrite (dataLoop_step _ _ _ _ _ [] (length (T ++ [newline]))).
  - unfold afterNewline. destruct columns as [|c columns]; simpl; [|done].
    by rewrite dataLoop_done.
  - rewrite length_snoc. lia.
  - unfold parseRow. rewrite (parseRowLoop_end _ _ _ _ [] (length (T ++ [newline]))).
    + done.
    + unfold parseColumn. rewrite (lookup_ge_None_2 (T ++ [newline]))
        by (rewrite length_snoc; lia). simpl.
      rewrite unquotedLoop_eq. destruct (decide _) as [Hlt|_]; [|done].
      rewrite length_snoc in Hlt. lia.
    + by rewrite drop_all.
Qed.

Lemma dataLoop_newline_closed fuel : forall (T : jsstring) columns i data rows,
  quotesClosed T -> i <= length T -> (i < length T -> fieldStart T (i + 1)) ->
  dataLoop fuel T columns i data = Some (inr rows) ->
  dataLoop (S fuel) (T ++ [newline]) columns i data = Some (afterNewline columns rows).
Proof.
  induction fuel as [|fuel IH]; intros T columns i data rows Hclosed Hi Hfs H.
  - simpl in H. destruct (Nat.eqb_spec i (length T)) as [Heq|]; [|done].
    injection H as <-. by apply dataLoop_trailing.
  - destruct (decide (i = length T)) as [Heq|Hne].
    + rewrite dataLoop_done in H by done. injection H as <-.
      by apply dataLoop_trailing.
    + cbn [dataLoop] in H. apply Nat.eqb_neq in Hne as Hne'. rewrite Hne' in H.
      destruct (parseRow (S fuel) T (i + 1)) as [[row i']|] eqn:Hrow; [|done].
      assert (fieldStart T (i + 1)) as Hfs' by (apply Hfs; lia).
      rewrite (dataLoop_step _ _ _ _ _ row i').
      * destruct (negb _); [done|].
        pose proof (parseRowLoop_bounds _ _ _ _ _ _ Hrow ltac:(lia)) as Hb.
        apply IH; [done|lia| |done].
        intros Hlt. by eapply parseRowLoop_fieldStart.
      * rewrite length_snoc. lia.
      * unfold parseRow in *. rewrite parseRowLoop_newline_closed by (done || lia).
        apply (parseRowLoop_mono (S fuel)); [done|lia].
Qed.

Lemma parse_newline_closed fuel (T : jsstring) columns rows :
  quotesClosed T ->
  parse fuel T = Some (inr (columns, rows)) ->
  parse (S fuel) (T ++ [newline])
  = Some match afterNewline columns rows with
         | inl e => inl e
         | inr rows' => inr (columns, rows')
         end.
Proof.
  intros Hclosed. unfold parse.
  destruct (parseRow fuel T 0) as [[columns' i]|] eqn:Hc; [|done].
  destruct (dataLoop fuel T columns' i []) as [[e|rows']|] eqn:Hd; try done.
  intros [= -> ->]. unfold parseRow in *.
  rewrite parseRowLoop_newline_closed by (done || constructor || lia).
  rewrite (parseRowLoop_mono _ _ _ _ _ (S fuel) Hc) by lia.
  pose proof (parseRowLoop_bounds _ _ _ _ _ _ Hc ltac:(lia)) as Hb.
  rewrite (dataLoop_newline_closed _ _ _ _ _ rows); [|done|lia| |done].
  - by destruct (afterNewline _ _).
  - intros Hlt. eapply parseRowLoop_fieldStart; [|exact Hc|done]. constructor.
Qed.

Lemma parse_agree fuel fuel' content x y :
  parse fuel content = Some x -> parse fuel' content = Some y -> x = y.
Proof.
  intros Hx Hy.
  apply (parse_mono _ (fuel + fuel')) in Hx; [|lia].
  apply (parse_mono _ (fuel + fuel')) in Hy; [|lia]. congruence.
Qed.

(** ** Termination on texts without double quotes *)

Lemma unquotedLoop_stops data n : forall i acc p e,
  length data - i <= n ->
  unquotedLoop data i acc = (p, e) -> e < length data ->
  exists c, data !! e = Some c /\ isSeparator c = true.
Proof.
  induction n as [|n IH]; intros i acc p e Hn H He; rewrite unquotedLoop_eq in H;
    destruct (decide _) as [Hlt|Hge]; try lia; try (injection H as <- <-; lia).
  destruct (data !! i) as [c|] eqn:Hc; simpl in H.
  - fold (isSeparator c) in H. destruct (isSeparator c) eqn:Hsep.
    + injection H as <- <-. by exists c.
    + apply IH in H; [done|lia|done].
  - apply IH in H; [done|lia|done].
Qed.

Lemma parseRowLoop_total (T : jsstring) n : forall index acc,
  dquote ∉ T -> length T - index <= n -> index <= length T ->
  exists x, parseRowLoop (S n) T index acc = Some x.
Proof.
  induction n as [|n IH]; intros index acc Hfree Hn Hi; cbn [parseRowLoop];
    destruct (parseColumn T index) as [p e] eqn:Hp;
    pose proof (parseColumn_bounds _ _ _ _ Hp Hi) as Hb;
    (destruct (T !! e) as [c|] eqn:Hc; [|by eexists]);
    apply lookup_lt_Some in Hc as He; try lia.
  unfold parseColumn in Hp. rewrite charIs_dquote_free in Hp by done.
  destruct (unquotedLoop_stops T (length T) index [] p e ltac:(lia) Hp He)
    as (c' & Hc' & Hsep).
  rewrite Hc in Hc'. injection Hc' as <-. unfold isSeparator in Hsep.
  destruct (N.eqb c comma); [apply IH; [done|lia|lia]|].
  simpl in Hsep. rewrite Hsep. by eexists.
Qed.

Lemma dataLoop_total (T : jsstring) columns n : forall i data,
  dquote ∉ T -> length T - i <= n -> i <= length T ->
  exists x, dataLoop (length T + 1 + n) T columns i data = Some x.
Proof.
  induction n as [|n IH]; intros i data Hfree Hn Hi.
  - rewrite dataLoop_done by lia. by eexists.
  - destruct (decide (i = length T)) as [->|Hne];
      [rewrite dataLoop_done by done; by eexists|].
    destruct (parseRowLoop_total T (length T) (i + 1) [] Hfree) as [[row i'] Hrow];
      [lia..|].
    replace (length T + 1 + S n) with (S (length T + 1 + n)) by lia.
    rewrite (dataLoop_step _ _ _ _ _ row i' Hne)
      by (apply (parseRowLoop_mono (S (length T))); [done|lia]).
    destruct (negb _); [by eexists|].
    apply parseRowLoop_bounds in Hrow; [|lia]. apply IH; [done|lia|lia].
Qed.

(** On a text without double quotes [parse] returns. *)
Lemma parse_total (T : jsstring) :
  dquote ∉ T -> exists fuel x, parse fuel T = Some x.
Proof.
  intros Hfree. exists (length T + 1 + length T). unfold parse, parseRow.
  destruct (parseRowLoop_total T (length T) 0 [] Hfree) as [[columns i] Hc];
    [lia..|].
  rewrite (parseRowLoop_mono _ _ _ _ _ (length T + 1 + length T) Hc) by lia.
  apply parseRowLoop_bounds in Hc; [|lia].
  destruct (dataLoop_total T columns (length T) i [] Hfree) as [res ->]; [lia..|].
  destruct res as [e|rows]; by eexists.
Qed.

(** ** Row validation *)

Lemma checkRows_None this rows : forall i,
  checkRows this i rows = None
  <-> Forall (fun r => length r = length (_columns this)) rows.
Proof.
  induction rows as [|r rest IH]; intros i; simpl; [by split|].
  destruct (Nat.eqb_spec (length r) (length (_columns this))) as [Heq|Hne]; simpl.
  - rewrite IH. split; [by constructor|by inversion 1].
  - split; [done|]. by inversion 1.
Qed.

Lemma checkRows_Some this rows : forall i e,
  checkRows this i rows = Some e
  <-> exists k r,
        rows !! k = Some r
        /\ length r <> length (_columns this)
        /\ (forall j r', j < k -> rows !! j = Some r' ->
                         length r' = length (_columns this))
        /\ e = inconsistentRowLengths (i + k + 1) (length r)
                 (length (_columns this)).
Proof.
  induction rows as [|r rest IH]; intros i e; simpl.
  - split; [done|]. by intros (k & r & Hk & _).
  - destruct (Nat.eqb_spec (length r) (length (_columns this))) as [Heq|Hne]; simpl.
    + rewrite IH. split.
      * intros (k & r' & Hk & Hlen & Hfirst & ->).
        exists (S k), r'. repeat split; try done.
        -- intros [|j] r'' Hj Hr''; simpl in Hr''; [by injection Hr'' as <-|].
           apply (Hfirst j); [lia|done].
        -- f_equal. lia.
      * intros ([|k] & r' & Hk & Hlen & Hfirst & ->); simpl in Hk.
        -- by injection Hk as <-.
        -- exists k, r'. repeat split; try done.
           ++ intros j r'' Hj Hr''. apply (Hfirst (S j)); [lia|done].
           ++ f_equal. lia.
    + split.
      * intros [= <-]. exists 0, r. repeat split; try done; [lia|].
        f_equal. lia.
      * intros ([|k] & r' & Hk & Hlen & Hfirst & ->); simpl in Hk.
        -- injection Hk as <-. do 2 f_equal. lia.
        -- destruct Hne. apply (Hfirst 0); [lia|done].
Qed.

Lemma length_le_concat (rows : list (list jsstring)) r :
  r ∈ rows -> length r <= length (concat rows).
Proof.
  induction rows as [|r' rows IH]; intros Hr; [by apply elem_of_nil in Hr|].
  simpl. rewrite length_app.
  apply elem_of_cons in Hr as [->|Hr]; [lia|]. apply IH in Hr. lia.
Qed.

Lemma map_keptFields_id rows :
  Forall (fun r => last r <> Some []) rows -> map keptFields rows = rows.
Proof.
  induction 1 as [|r rest Hr _ IH]; simpl; [done|].
  by rewrite keptFields_id, IH.
Qed.


(** ** The codec *)

(** C1 (as amended): for every column sequence C and row sequence R in
    which each row has as many fields as C, and in which neither C nor any
    row ends with an empty string, parsing the serialized text gives back
    columns C and rows R, whether R is empty or not. *)
Theorem roundTrip_parse_toString C R fuel :
  Forall (fun r => length r = length C) R ->
  last C <> Some [] ->
  Forall (fun r => last r <> Some []) R ->
  length C + length R < fuel ->
  parse fuel (toString (mkTable C R)) = Some (inr (C, R)).
Proof.
  intros Hshape HC HR Hfuel. rewrite parse_toString; simpl.
  - rewrite keptFields_id, map_keptFields_id by done.
    by apply (checkRows_None (mkTable C []) R 0) in Hshape as ->.
  - lia.
  - intros r Hr. rewrite Forall_forall in Hshape.
    rewrite (Hshape r) by done. lia.
Qed.

Lemma roundTrip_parse_toString_witness :
  parse 6 (toString (mkTable [str "name"; str "a,b"]
                       [[str "Carlos"; dquote :: str "34"];
                        [[]; [newline; dquote]]]))
  = Some (inr ([str "name"; str "a,b"],
               [[str "Carlos"; dquote :: str "34"]; [[]; [newline; dquote]]])).
Proof.
  apply roundTrip_parse_toString.
  - repeat constructor.
  - discriminate.
  - repeat constructor; discriminate.
  - simpl. lia.
Defined.

(** The two conditions on the last fields are needed: a table whose text
    parses back to it meets them. *)
Lemma roundTrip_only_if C R fuel :
  parse fuel (toString (mkTable C R)) = Some (inr (C, R)) ->
  last C <> Some [] /\ Forall (fun r => last r <> Some []) R.
Proof.
  intros H.
  assert (parse (2 + length C + length R + length (concat R))
            (toString (mkTable C R))
          = Some match checkRows (mkTable (keptFields C) []) 0
                         (map keptFields R) with
                 | Some e => inl e
                 | None => inr (keptFields C, map keptFields R)
                 end) as H0.
  { apply parse_toString; simpl; [lia|].
    intros r Hr%length_le_concat. lia. }
  pose proof (parse_agree _ _ _ _ _ H H0) as Heq.
  destruct (checkRows _ 0 _); [done|].
  injection Heq as HC HR. split; [by apply keptFields_fixed|].
  apply Forall_forall. intros r Hr. apply keptFields_fixed.
  apply list_elem_of_lookup in Hr as [i Hi].
  apply (f_equal (fun l => l !! i)) in HR.
  rewrite list_lookup_fmap, Hi in HR. simpl in HR. by injection HR.
Qed.

(** C1 fails as stated: a one-column table whose only row holds the empty
    string has rows of the right length, and its text does not parse back. *)
Lemma roundTrip_counterexample :
  Forall (fun r : list jsstring => length r = length [str "a"]) [[ [] ]]
  /\ parse 2 (toString (mkTable [str "a"] [[ [] ]]))
     = Some (inl (inconsistentRowLengths 1 0 1))
  /\ forall fuel,
       parse fuel (toString (mkTable [str "a"] [[ [] ]]))
       <> Some (inr ([str "a"], [[ [] ]])).
Proof.
  assert (parse 2 (toString (mkTable [str "a"] [[ [] ]]))
          = Some (inl (inconsistentRowLengths 1 0 1))) as H by reflexivity.
  split; [repeat constructor|]. split; [done|].
  intros fuel Hf. by pose proof (parse_agree _ _ _ _ _ H Hf).
Qed.

(** A newline after the text of a table makes the text of the table with
    one more row, which has no field. *)
Lemma toString_newline C R :
  toString (mkTable C R) ++ [newline] = toString (mkTable C (R ++ [[]])).
Proof.
  rewrite !toString_spec. simpl. rewrite flat_map_app. simpl.
  by rewrite <- app_assoc.
Qed.

Lemma checkRows_snoc this rows r : forall i,
  Forall (fun r' => length r' = length (_columns this)) rows ->
  checkRows this i (rows ++ [r])
  = if negb (Nat.eqb (length r) (length (_columns this)))
    then Some (inconsistentRowLengths (i + length rows + 1) (length r)
                 (length (_columns this)))
    else None.
Proof.
  induction rows as [|r' rows IH]; intros i Hok; simpl.
  - destruct (negb _); [|done]. do 2 f_equal. lia.
  - inversion Hok as [|? ? Hr' Hrows]; subst.
    rewrite Hr', Nat.eqb_refl. simpl. rewrite IH by done.
    destruct (negb _); [|done]. do 2 f_equal. lia.
Qed.

(** What [parse] makes of the text of a table, with quoted fields or not,
    and a newline after it. *)
Lemma parse_toString_newline this fuel C R :
  parse fuel (toString this) = Some (inr (C, R)) ->
  exists fuel',
    parse fuel' (toString this ++ [newline])
    = Some match afterNewline C R with
           | inl e => inl e
           | inr rows' => inr (C, rows')
           end.
Proof.
  intros H. destruct this as [C0 R0].
  set (big := 2 + length C0 + length R0 + length (concat R0)).
  assert (parse big (toString (mkTable C0 R0))
          = Some match checkRows (mkTable (keptFields C0) []) 0
                         (map keptFields R0) with
                 | Some e => inl e
                 | None => inr (keptFields C0, map keptFields R0)
                 end) as H0.
  { apply parse_toString; simpl; [lia|].
    intros r Hr%length_le_concat. lia. }
  pose proof (parse_agree _ _ _ _ _ H H0) as Heq.
  destruct (checkRows _ 0 (map keptFields R0)) eqn:Hcheck; [done|].
  injection Heq as -> ->. apply checkRows_None in Hcheck.
  exists big. rewrite toString_newline, parse_toString; simpl.
  - rewrite map_app. simpl. rewrite checkRows_snoc by done. simpl.
    unfold afterNewline. rewrite length_map.
    by destruct (keptFields C0).
  - lia.
  - intros r [Hr%length_le_concat| ->%list_elem_of_singleton]%elem_of_app;
      rewrite length_app; simpl; lia.
Qed.

(** C2 (as amended): for every text T that parses to columns C and rows R
    and does not end inside a quoted field that is not closed (no text
    without double quotes does, and no text of a table), the text T
    followed by a final newline is read with one more row, which has no
    field: when C is empty the result is C and R followed by an empty row,
    otherwise the parse is rejected for row |R|+1, which has 0 fields
    instead of |C|. *)
Theorem trailing_newline_adds_row fuel (T : jsstring) C R :
  quotesClosed T \/ (exists this, T = toString this) ->
  parse fuel T = Some (inr (C, R)) ->
  exists fuel',
    parse fuel' (T ++ [newline])
    = Some (if Nat.eqb (length C) 0 then inr (C, R ++ [[]])
            else inl (inconsistentRowLengths (length R + 1) 0 (length C))).
Proof.
  intros [Hclosed|[this ->]] H.
  - exists (S fuel). rewrite (parse_newline_closed _ _ _ _ Hclosed H).
    unfold afterNewline. by destruct (Nat.eqb _ _).
  - destruct (parse_toString_newline _ _ _ _ H) as [fuel' H'].
    exists fuel'. rewrite H'. unfold afterNewline. by destruct (Nat.eqb _ _).
Qed.

Lemma trailing_newline_adds_row_witness :
  exists fuel',
    parse fuel' ((str "a" ++ newline :: wrapped (str "b")) ++ [newline])
    = Some (inl (inconsistentRowLengths 2 0 1)).
Proof.
  apply (trailing_newline_adds_row 2 (str "a" ++ newline :: wrapped (str "b"))
           [str "a"] [[str "b"]]).
  - left. intros k p Hfs Hk Hp.
    destruct k as [|[|[|[|[|k]]]]]; try discriminate.
    + exists (str "b"). reflexivity.
    + inversion Hfs as [|k0 p0 e c Hfs0 Hp0 Hc Hsep Heq].
      assert (e = 3) as -> by lia. vm_compute in Hc. injection Hc as <-.
      destruct Hsep; discriminate.
  - reflexivity.
Defined.

(** C2 fails as stated: the text of one column and one row parses, and
    with a final newline it is rejected. *)
Lemma trailing_newline_counterexample :
  parse 2 (str "a" ++ newline :: str "1") = Some (inr ([str "a"], [[str "1"]]))
  /\ parse 3 ((str "a" ++ newline :: str "1") ++ [newline])
     = Some (inl (inconsistentRowLengths 2 0 1))
  /\ forall fuel,
       parse fuel ((str "a" ++ newline :: str "1") ++ [newline])
       <> Some (inr ([str "a"], [[str "1"]])).
Proof.
  assert (parse 3 ((str "a" ++ newline :: str "1") ++ [newline])
          = Some (inl (inconsistentRowLengths 2 0 1))) as H by reflexivity.
  split; [reflexivity|]. split; [done|].
  intros fuel Hf. by pose proof (parse_agree _ _ _ _ _ H Hf).
Qed.




(** C4, at the failing input: on the text of a quoted field a, closed, and
    then the character b, [parseRow] repeats one turn for ever, and
    [getDataFrom] neither resolves nor rejects, however many turns it is
    given. *)
Theorem getDataFrom_hangs fuel filename this :
  getDataFrom fuel filename None (dquote :: str "a" ++ dquote :: str "b") this = None.
Proof.
  unfold getDataFrom, parse, parseRow.
  by rewrite (parseRowLoop_stuck _ 0 [] (str "a") 3 98%N).
Qed.

(** C5: a field is wrapped in double quotes exactly when it has a comma or
    a newline in it or a double quote in front; a wrapped field has every
    double quote doubled, any other field is written as it is; the field
    a,b is wrapped, the field a, quote, b is written as it is, the field
    quote, a, b is wrapped with its quote doubled, and that text parses to
    the one field quote, a, b. *)
Theorem convertToproperStr_quoting (F : jsstring) :
  (convertToproperStr F = wrapped F
   <-> (comma ∈ F \/ newline ∈ F \/ F !! 0 = Some dquote))
  /\ (convertToproperStr F = F
      <-> ~ (comma ∈ F \/ newline ∈ F \/ F !! 0 = Some dquote))
  /\ convertToproperStr (str "a,b") = dquote :: str "a,b" ++ [dquote]
  /\ convertToproperStr (str "a" ++ dquote :: str "b") = str "a" ++ dquote :: str "b"
  /\ convertToproperStr (dquote :: str "ab")
     = [dquote; dquote; dquote] ++ str "ab" ++ [dquote]
  /\ (forall fuel,
        parse (S fuel) ([dquote; dquote; dquote] ++ str "ab" ++ [dquote])
        = Some (inr ([dquote :: str "ab"], []))).
Proof.
  repeat split; try reflexivity.
  - intros H. rewrite convertToproperStr_spec in H. apply mustQuote_true.
    destruct (mustQuote F); [done|]. symmetry in H. by apply wrapped_neq in H.
  - intros H. apply mustQuote_true in H.
    by rewrite convertToproperStr_spec, H.
  - intros H Hq. apply mustQuote_true in Hq.
    rewrite convertToproperStr_spec, Hq in H. by apply wrapped_neq in H.
  - intros H. rewrite convertToproperStr_spec.
    destruct (mustQuote F) eqn:Hq; [|done]. by apply mustQuote_true in Hq.
Qed.

Lemma joinFields_joinWith fields :
  joinFields fields = joinWith [comma] (map convertToproperStr fields).
Proof.
  destruct fields as [|f rest]; [done|]. unfold joinFields.
  revert f. induction rest as [|g rest IH]; intros f; simpl.
  - by rewrite app_nil_r.
  - f_equal. f_equal. apply IH.
Qed.

(** C9: the empty text parses to no column and no row; the header-only
    text column1,column2,column3 parses to these three columns and no
    row; and the text of a table without rows is its encoded column names
    joined by commas, with nothing after them. *)
Theorem empty_tables :
  (forall fuel, parse (S fuel) [] = Some (inr ([], [])))
  /\ (forall fuel,
        parse (3 + fuel) (str "column1,column2,column3")
        = Some (inr ([str "column1"; str "column2"; str "column3"], [])))
  /\ (forall C, toString (mkTable C [])
                = joinWith [comma] (map convertToproperStr C)).
Proof.
  split; [|split].
  - intros fuel. apply (parse_mono 1); [reflexivity|lia].
  - intros fuel. apply (parse_mono 3); [reflexivity|lia].
  - intros C. rewrite toString_spec. simpl.
    by rewrite app_nil_r, joinFields_joinWith.
Qed.

(** ** The rows [getDataFrom] reads *)

Lemma dataLoop_rejects fuel : forall content columns i data e,
  dataLoop fuel content columns i data = Some (inl e) ->
  exists rows r j,
    rowsRead content i (rows ++ [r]) j
    /\ Forall (fun r' => length r' = length columns) rows
    /\ length r <> length columns
    /\ e = inconsistentRowLengths (length data + length rows + 1) (length r)
             (length columns).
Proof.
  induction fuel as [|fuel IH]; intros content columns i data e H; cbn [dataLoop] in H;
    destruct (Nat.eqb_spec i (length content)) as [Hi|Hi]; try done.
  destruct (parseRow (S fuel) content (i + 1)) as [[row i']|] eqn:Hrow; [|done].
  destruct (Nat.eqb_spec (length row) (length columns)) as [Hlen|Hlen]; simpl in H.
  - apply IH in H as (rows & r & j & Hread & Hok & Hbad & ->).
    exists (row :: rows), r, j. repeat split; try done.
    + simpl. by eapply rowsRead_cons.
    + by constructor.
    + rewrite length_app. simpl. f_equal. lia.
  - injection H as <-. exists [], row, i'. repeat split; try done.
    + simpl. eapply rowsRead_cons; [done..|constructor].
    + simpl. f_equal. lia.
Qed.

Lemma dataLoop_resolves fuel : forall content columns i data res,
  dataLoop fuel content columns i data = Some (inr res) ->
  exists rows,
    res = data ++ rows
    /\ rowsRead content i rows (length content)
    /\ Forall (fun r => length r = length columns) rows.
Proof.
  induction fuel as [|fuel IH]; intros content columns i data res H;
    cbn [dataLoop] in H;
    destruct (Nat.eqb_spec i (length content)) as [Hi|Hi]; try done;
    try (injection H as <-; exists []; rewrite app_nil_r; subst i;
         repeat split; [constructor|constructor]).
  destruct (parseRow (S fuel) content (i + 1)) as [[row i']|] eqn:Hrow; [|done].
  destruct (Nat.eqb_spec (length row) (length columns)) as [Hlen|Hlen];
    simpl in H; [|done].
  apply IH in H as (rows & -> & Hread & Hok).
  exists (row :: rows). repeat split.
  - by rewrite <- app_assoc.
  - by eapply rowsRead_cons.
  - by constructor.
Qed.

Lemma rowsRead_rejects content columns rows : forall i r j data,
  rowsRead content i (rows ++ [r]) j ->
  Forall (fun r' => length r' = length columns) rows ->
  length r <> length columns ->
  exists fuel,
    dataLoop fuel content columns i data
    = Some (inl (inconsistentRowLengths (length data + length rows + 1)
                   (length r) (length columns))).
Proof.
  induction rows as [|r0 rows IH]; intros i r j data Hread Hok Hbad;
    inversion Hread as [|? fuel row i' rest ? Hi Hrow Hrest]; subst.
  - exists (S fuel).
    rewrite (dataLoop_step _ _ _ _ _ r i' Hi)
      by (apply (parseRowLoop_mono fuel); [done|lia]).
    apply Nat.eqb_neq in Hbad. rewrite Hbad. simpl. do 3 f_equal. lia.
  - inversion Hok as [|? ? Hr0 Hrows]; subst.
    destruct (IH i' r j (data ++ [r0]) Hrest Hrows Hbad) as [fuel1 Hd].
    exists (S (fuel + fuel1)).
    rewrite (dataLoop_step _ _ _ _ _ r0 i' Hi)
      by (apply (parseRowLoop_mono fuel); [done|lia]).
    rewrite Hr0, Nat.eqb_refl. simpl.
    rewrite (dataLoop_mono _ _ _ _ _ _ (fuel + fuel1) Hd) by lia.
    rewrite length_app. simpl. do 3 f_equal. lia.
Qed.

(** ** The text of the error *)

Lemma str_inj s1 s2 : str s1 = str s2 -> s1 = s2.
Proof.
  unfold str. intros H.
  rewrite <- (string_of_list_ascii_of_string s1),
          <- (string_of_list_ascii_of_string s2).
  f_equal. revert H. generalize (list_ascii_of_string s1) as l1.
  generalize (list_ascii_of_string s2) as l2. clear.
  intros l2 l1. revert l2. induction l1 as [|a l1 IH]; intros [|b l2] H; try done.
  simpl in H. injection H as Hab H. f_equal; [|by apply IH].
  rewrite <- (ascii_N_embedding a), <- (ascii_N_embedding b). by f_equal.
Qed.

Lemma numberToString_inj n m : numberToString n = numberToString m -> n = m.
Proof.
  unfold numberToString. intros H%str_inj.
  assert (Some (Nat.to_uint n) = Some (Nat.to_uint m)) as [= Hu]
    by (by rewrite <- !NilEmpty.usu, H).
  by rewrite <- (DecimalNat.Unsigned.of_to n), <- (DecimalNat.Unsigned.of_to m), Hu.
Qed.

Lemma numberToString_digits n :
  Forall (fun c => (48 <= c <= 57)%N) (numberToString n).
Proof.
  unfold numberToString. generalize (Nat.to_uint n) as d.
  induction d; simpl; constructor; try done; simpl; lia.
Qed.

Lemma digits_prefix (ds ds' : jsstring) x x' r r' :
  Forall (fun c => (48 <= c <= 57)%N) ds ->
  Forall (fun c => (48 <= c <= 57)%N) ds' ->
  ~ (48 <= x <= 57)%N -> ~ (48 <= x' <= 57)%N ->
  ds ++ x :: r = ds' ++ x' :: r' -> ds = ds' /\ r = r'.
Proof.
  intros Hds. revert ds'. induction Hds as [|d ds Hd _ IH];
    intros ds' Hds' Hx Hx' H; destruct Hds' as [|d' ds' Hd' Hds']; simpl in H.
  - by injection H as _ ->.
  - injection H as -> _. done.
  - injection H as -> _. done.
  - injection H as -> H. destruct (IH ds' Hds' Hx Hx' H) as [-> ->]. done.
Qed.

Lemma template_inj (A B C D : jsstring) b c d n a e n' a' e' :
  ~ (48 <= b <= 57)%N -> ~ (48 <= c <= 57)%N -> ~ (48 <= d <= 57)%N ->
  A ++ numberToString n ++ (b :: B) ++ numberToString a ++ (c :: C)
    ++ numberToString e ++ (d :: D)
  = A ++ numberToString n' ++ (b :: B) ++ numberToString a' ++ (c :: C)
      ++ numberToString e' ++ (d :: D) ->
  n = n' /\ a = a' /\ e = e'.
Proof.
  intros Hb Hc Hd H. apply app_inv_head in H. simpl in H.
  apply digits_prefix in H as [Hn H]; try apply numberToString_digits; try done.
  apply app_inv_head in H.
  apply digits_prefix in H as [Ha H]; try apply numberToString_digits; try done.
  apply app_inv_head in H.
  apply digits_prefix in H as [He _]; try apply numberToString_digits; try done.
  auto using numberToString_inj.
Qed.

(** ** The table and its rows *)

Lemma set_data_throws rows this e this' :
  set_data rows this = (Throw e, this') -> this' = this.
Proof.
  unfold set_data. destruct (checkRows this 0 rows); [by intros [= _ ->]|done].
Qed.

Lemma getDataFrom_rejects fuel filename error content this e this' :
  getDataFrom fuel filename error content this = Some (Throw e, this') ->
  this' = this.
Proof.
  unfold getDataFrom. destruct error; [by intros [= _ ->]|].
  destruct (parse fuel content) as [[?|[? ?]]|]; try done. by intros [= _ ->].
Qed.

(** C6: when a row of the wrong length is found, the state is as it was:
    the [data] setter that throws and [getDataFrom] that rejects leave the
    columns and rows of the table as they were, and a constructor that
    throws yields no table, the rows of the object it was building being
    still empty. *)
Theorem shapeError_keeps_state :
  (forall rows this e this',
     set_data rows this = (Throw e, this') -> this' = this)
  /\ (forall fuel filename error content this e this',
        getDataFrom fuel filename error content this = Some (Throw e, this') ->
        this' = this)
  /\ (forall columns rows e this',
        constructorBody columns rows emptyTable = (Throw e, this') ->
        _data this' = [] /\ newTable columns rows = inl e).
Proof.
  split; [|split].
  - apply set_data_throws.
  - apply getDataFrom_rejects.
  - intros columns rows e this'. unfold newTable, constructorBody, bind, set_data.
    simpl. destruct (checkRows _ 0 _); [|done]. by intros [= -> <-].
Qed.

Lemma shapeError_keeps_state_witness :
  let this := mkTable [str "a"; str "b"] [[str "1"; str "2"]] in
  snd (set_data [[str "3"]] this) = this.
Proof.
  intros this.
  apply (proj1 shapeError_keeps_state [[str "3"]] this
           (inconsistentRowLengths 1 1 2)).
  reflexivity.
Defined.

(** C7: the [data] setter, and with it the constructor, throws exactly
    when some row has not as many fields as there are columns, and the
    error names the first such row by its index counted from 1, its length
    and the number of columns; [getDataFrom] rejects with the same error
    for the first row it reads that has not the length of the header, and
    for the text a,b / 1,2 / 3 this is row 2. The error is the object with
    the type InconsistentRowLengths and the description that spells the
    three numbers in decimal, and two such errors are the same only for
    the same row number, row length and number of columns. *)
Theorem shapeError_first_row :
  (forall rows this,
     (exists e, fst (set_data rows this) = Throw e)
     <-> Exists (fun r => length r <> length (_columns this)) rows)
  /\ (forall rows this e,
        fst (set_data rows this) = Throw e
        <-> exists k r,
              rows !! k = Some r
              /\ length r <> length (_columns this)
              /\ (forall j r', j < k -> rows !! j = Some r' ->
                               length r' = length (_columns this))
              /\ e = inconsistentRowLengths (k + 1) (length r)
                       (length (_columns this)))
  /\ (forall columns rows e,
        newTable columns (Some rows) = inl e
        <-> exists k r,
              rows !! k = Some r
              /\ length r <> length columns
              /\ (forall j r', j < k -> rows !! j = Some r' ->
                               length r' = length columns)
              /\ e = inconsistentRowLengths (k + 1) (length r) (length columns))
  /\ (forall content e,
        (exists fuel, parse fuel content = Some (inl e))
        <-> exists fuel0 columns i rows r j,
              parseRow fuel0 content 0 = Some (columns, i)
              /\ rowsRead content i (rows ++ [r]) j
              /\ Forall (fun r' => length r' = length columns) rows
              /\ length r <> length columns
              /\ e = inconsistentRowLengths (length rows + 1) (length r)
                       (length columns))
  /\ parse 3 (str "a,b" ++ newline :: str "1,2" ++ newline :: str "3")
     = Some (inl (inconsistentRowLengths 2 1 2))
  /\ (forall n a e,
        inconsistentRowLengths n a e
        = {| type := InconsistentRowLengths;
             description :=
               Some (str "The row number " ++ numberToString n
                     ++ str " does not have the correct amount of columns (it has "
                     ++ numberToString a ++ str " instead of "
                     ++ numberToString e ++ str ")");
             data := None;
             dataDescription := None |})
  /\ description (inconsistentRowLengths 2 1 2)
     = Some (str "The row number 2 does not have the correct amount of columns (it has 1 instead of 2)")
  /\ (forall n a e n' a' e',
        description (inconsistentRowLengths n a e)
        = description (inconsistentRowLengths n' a' e') ->
        n = n' /\ a = a' /\ e = e').
Proof.
  assert (forall rows this e,
    fst (set_data rows this) = Throw e <-> checkRows this 0 rows = Some e) as Hset.
  { intros rows this e. unfold set_data.
    destruct (checkRows this 0 rows); simpl; split; congruence. }
  split; [|split; [|split; [|split; [|split; [|split; [|split]]]]]].
  - intros rows this. split.
    + intros [e He]. apply Hset in He.
      destruct (decide (Exists (fun r => length r <> length (_columns this)) rows))
        as [Hex|Hno]; [done|].
      assert (checkRows this 0 rows = None) as Hnone; [|congruence].
      apply checkRows_None. apply Forall_forall. intros r Hr.
      destruct (Nat.eq_dec (length r) (length (_columns this))) as [|Hne]; [done|].
      destruct Hno. apply Exists_exists. by exists r.
    + intros Hex. destruct (checkRows this 0 rows) as [e|] eqn:Hc.
      * exists e. by apply Hset.
      * apply checkRows_None in Hc. rewrite Forall_forall in Hc.
        apply Exists_exists in Hex as (r & Hr & Hne).
        destruct Hne. by apply Hc.
  - intros rows this e. rewrite Hset. apply (checkRows_Some this rows 0 e).
  - intros columns rows e.
    rewrite <- (checkRows_Some (mkTable columns []) rows 0 e).
    unfold newTable, constructorBody, bind, set_data. simpl.
    destruct (checkRows _ 0 rows); split; congruence.
  - intros content e. split.
    + intros [fuel H]. unfold parse in H.
      destruct (parseRow fuel content 0) as [[columns i]|] eqn:Hc; [|done].
      destruct (dataLoop fuel content columns i []) as [[e'|rows]|] eqn:Hd;
        try done.
      injection H as ->.
      apply dataLoop_rejects in Hd as (rows & r & j & H1 & H2 & H3 & ->).
      exists fuel, columns, i, rows, r, j. repeat split; done.
    + intros (fuel0 & columns & i & rows & r & j & Hc & Hread & Hok & Hbad & ->).
      destruct (rowsRead_rejects content columns rows i r j [] Hread Hok Hbad)
        as [fuel1 Hd].
      exists (fuel0 + fuel1). unfold parse, parseRow in *.
      rewrite (parseRowLoop_mono _ _ _ _ _ (fuel0 + fuel1) Hc) by lia.
      by rewrite (dataLoop_mono _ _ _ _ _ _ (fuel0 + fuel1) Hd) by lia.
  - reflexivity.
  - reflexivity.
  - reflexivity.
  - intros n a e n' a' e'. unfold inconsistentRowLengths. cbn [description].
    intros H. apply (inj Some) in H.
    apply (template_inj (str "The row number ")
             (str "does not have the correct amount of columns (it has ")
             (str "instead of ") [] 32%N 32%N 41%N); [lia..|exact H].
Qed.

Lemma shapeError_first_row_witness :
  newTable [str "name"; str "gender"; str "age"]
    (Some [[str "Pedro"; str "M"; str "33"]; [str "Isabella"; str "F"];
           [str "Matias"; str "M"]])
  = inl (inconsistentRowLengths 2 2 3).
Proof.
  apply (proj1 (proj2 (proj2 shapeError_first_row))).
  exists 1, [str "Isabella"; str "F"]. repeat split.
  - simpl. lia.
  - intros [|[|j]] r' Hj Hr'; [by injection Hr' as <-|lia|lia].
Defined.

(** C8: after a constructor that returned, a [data] setter that returned
    and a [getDataFrom] that resolved, every row of the table has as many
    fields as the table has columns; and whatever the outcome of the setter
    and of [getDataFrom], a table that had this shape before has it after. *)
Theorem shape_invariant :
  (forall columns rows this, newTable columns rows = inr this -> wellShaped this)
  /\ (forall rows this this',
        set_data rows this = (Normal tt, this') -> wellShaped this')
  /\ (forall fuel filename error content this this',
        getDataFrom fuel filename error content this = Some (Normal tt, this') ->
        wellShaped this')
  /\ (forall rows this, wellShaped this -> wellShaped (snd (set_data rows this)))
  /\ (forall fuel filename error content this res this',
        wellShaped this ->
        getDataFrom fuel filename error content this = Some (res, this') ->
        wellShaped this').
Proof.
  assert (forall rows this this',
    set_data rows this = (Normal tt, this') -> wellShaped this') as Hset.
  { intros rows this this'. unfold set_data.
    destruct (checkRows this 0 rows) eqn:Hc; [done|]. intros [= <-].
    by apply checkRows_None in Hc. }
  assert (forall fuel filename error content this this',
    getDataFrom fuel filename error content this = Some (Normal tt, this') ->
    wellShaped this') as Hget.
  { intros fuel filename error content this this'. unfold getDataFrom, parse.
    destruct error; [done|].
    destruct (parseRow fuel content 0) as [[columns i]|]; [|done].
    destruct (dataLoop fuel content columns i []) as [[e'|rows]|] eqn:Hd; try done.
    intros [= <-]. apply dataLoop_resolves in Hd as (rows' & -> & _ & Hok). done. }
  split; [|split; [|split; [|split]]]; try done.
  - intros columns rows this. unfold newTable, constructorBody, bind. simpl.
    destruct (set_data _ _) as [[[]|e] this'] eqn:Hs; [|done].
    intros [= <-]. by apply Hset in Hs.
  - intros rows this Hwf. destruct (set_data rows this) as [[[]|e] this'] eqn:Hs.
    + by apply Hset in Hs.
    + apply set_data_throws in Hs as ->. done.
  - intros fuel filename error content this [[]|e] this' Hwf H.
    + by apply Hget in H.
    + apply getDataFrom_rejects in H as ->. done.
Qed.

Lemma shape_invariant_witness :
  wellShaped (snd (set_data [[str "3"; str "4"]; [str "5"; str "6"]]
                     (mkTable [str "a"; str "b"] [[str "1"; str "2"]]))).
Proof.
  apply (proj1 (proj2 (proj2 (proj2 shape_invariant)))).
  repeat constructor.
Defined.

(** ** The accessors *)

Module StoreFacts.
Import Store.

Lemma mapM_asString elements ss :
  mapM asString elements = Some ss <-> elements = VString <$> ss.
Proof.
  rewrite mapM_Some. split.
  - induction 1 as [|v s elements ss Hv _ IH]; [done|].
    destruct v; simpl in Hv; [|done]. injection Hv as ->. simpl. by f_equal.
  - intros ->. induction ss; constructor; done.
Qed.

Lemma readStrings_Some h array ss :
  readStrings h array = Some ss <-> h !! array = Some (VString <$> ss).
Proof.
  unfold readStrings. destruct (h !! array) as [elements|].
  - rewrite mapM_asString. split; [by intros ->|by intros [= ->]].
  - split; discriminate.
Qed.

Lemma cloneLoop_strings clone ss : forall (h : heap) clonedArray acc,
  h !! clonedArray = Some acc ->
  cloneLoop clone (VString <$> ss) clonedArray h
  = Some (<[clonedArray := acc ++ (VString <$> ss)]> h).
Proof.
  induction ss as [|s ss IH]; intros h clonedArray acc Hacc; simpl.
  - rewrite app_nil_r. by rewrite insert_id.
  - rewrite (IH _ _ (acc ++ [VString s])).
    + unfold push. rewrite <- app_assoc. simpl. f_equal.
      apply map_eq. intros l. destruct (decide (l = clonedArray)) as [->|Hne].
      * by rewrite !lookup_insert_eq.
      * by rewrite !lookup_insert_ne, lookup_alter_ne.
    + unfold push. by rewrite lookup_alter_eq, Hacc.
Qed.

Lemma cloneArray_strings depth (h : heap) array ss :
  h !! array = Some (VString <$> ss) ->
  cloneArray (S depth) h array
  = Some (<[fresh (dom h) := VString <$> ss]> h, fresh (dom h)).
Proof.
  intros Harray. simpl. rewrite Harray.
  rewrite (cloneLoop_strings _ _ _ _ []) by apply lookup_insert_eq.
  by rewrite insert_insert_eq.
Qed.

Lemma cloneLoop_rows depth (h0 : heap) d elements rows :
  Forall2 (fun v row => exists r, v = VArray r /\ h0 !! r = Some (VString <$> row))
    elements rows ->
  forall (h : heap) acc accRows,
    frame h0 h -> d ∉ dom h0 -> h !! d = Some acc ->
    Forall2 (isCopyOf h0 h d) acc accRows ->
    exists (h' : heap) acc',
      cloneLoop (cloneArray (S depth)) elements d h = Some h'
      /\ frame h0 h'
      /\ h' !! d = Some (acc ++ acc')
      /\ Forall2 (isCopyOf h0 h' d) (acc ++ acc') (accRows ++ rows).
Proof.
  induction 1 as [|v row elements rows (r & -> & Hr) _ IH];
    intros h acc accRows Hframe Hd Hacc Hcopies.
  - exists h, []. rewrite !app_nil_r. by repeat split.
  - assert (h !! r = Some (VString <$> row)) as Hr'.
    { rewrite Hframe; [done|]. apply elem_of_dom. by eexists. }
    cbn [cloneLoop]. rewrite (cloneArray_strings _ _ _ _ Hr').
    set (c := fresh (dom h)).
    assert (c ∉ dom h) as Hc by apply is_fresh.
    assert (c <> d) as Hcd.
    { intros ->. apply Hc. apply elem_of_dom. by eexists. }
    assert (c ∉ dom h0) as Hc0.
    { intros Hin. apply Hc. apply elem_of_dom. rewrite Hframe by done.
      by apply elem_of_dom. }
    destruct (IH (push (<[c := VString <$> row]> h) d (VArray c))
                (acc ++ [VArray c]) (accRows ++ [row]))
      as (h' & acc' & Hloop & Hframe' & Hd' & Hcopies'); try done.
    + intros l Hl. unfold push.
      rewrite lookup_alter_ne by (by intros ->).
      rewrite lookup_insert_ne by (by intros ->). by apply Hframe.
    + unfold push. rewrite lookup_alter_eq, lookup_insert_ne by done.
      by rewrite Hacc.
    + apply Forall2_app.
      * eapply Forall2_impl; [exact Hcopies|].
        intros v' row' (r' & -> & Hr0 & Hrd & Hrow). exists r'.
        repeat split; try done. unfold push.
        rewrite lookup_alter_ne by done. rewrite lookup_insert_ne; [done|].
        intros <-. apply Hc. apply elem_of_dom. by eexists.
      * constructor; [|constructor]. exists c. repeat split; try done.
        unfold push. rewrite lookup_alter_ne by done. apply lookup_insert_eq.
    + exists h', (VArray c :: acc'). rewrite <- !app_assoc in *. by repeat split.
Qed.

Lemma readRows_Forall2 (h : heap) array rows :
  readRows h array = Some rows
  <-> exists elements,
        h !! array = Some elements
        /\ Forall2 (fun v row => exists r, v = VArray r
                                          /\ h !! r = Some (VString <$> row))
             elements rows.
Proof.
  unfold readRows. destruct (h !! array) as [elements|]; [|split; [done|]].
  - rewrite mapM_Some. split.
    + intros H. exists elements. split; [done|].
      eapply Forall2_impl; [exact H|]. intros [s|r] row Hv; [done|].
      exists r. split; [done|]. by apply readStrings_Some.
    + intros (elements' & [= <-] & H).
      eapply Forall2_impl; [exact H|]. intros v row (r & -> & Hr).
      by apply readStrings_Some.
  - by intros (elements & ? & _).
Qed.

Lemma readRows_frame (h h' : heap) array rows :
  readRows h array = Some rows -> frame h h' -> readRows h' array = Some rows.
Proof.
  rewrite !readRows_Forall2. intros (elements & Harray & Hrows) Hframe.
  exists elements. split.
  - rewrite Hframe; [done|]. apply elem_of_dom. by eexists.
  - eapply Forall2_impl; [exact Hrows|]. intros v row (r & -> & Hr).
    exists r. split; [done|]. rewrite Hframe; [done|].
    apply elem_of_dom. by eexists.
Qed.

Lemma readStrings_frame (h h' : heap) array ss :
  readStrings h array = Some ss -> frame h h' -> readStrings h' array = Some ss.
Proof.
  rewrite !readStrings_Some. intros Harray Hframe.
  rewrite Hframe; [done|]. apply elem_of_dom. by eexists.
Qed.

Lemma cloneArray_S depth (h : heap) array :
  cloneArray (S depth) h array
  = match h !! array with
    | None => None
    | Some elements =>
        let clonedArray := fresh (dom h) in
        match cloneLoop (cloneArray depth) elements clonedArray
                (<[clonedArray := []]> h) with
        | None => None
        | Some h' => Some (h', clonedArray)
        end
    end.
Proof. reflexivity. Qed.

(** The copy [cloneArray] makes of an array of rows. *)
Lemma cloneArray_rows depth (h : heap) array rows :
  readRows h array = Some rows ->
  exists (h' : heap) d,
    cloneArray (S (S depth)) h array = Some (h', d)
    /\ frame h h'
    /\ readRows h' d = Some rows
    /\ (forall l, l ∈ copyLocs h' d -> l ∉ dom h).
Proof.
  intros (elements & Harray & Hrows)%readRows_Forall2.
  set (d := fresh (dom h)).
  assert (d ∉ dom h) as Hd by apply is_fresh.
  destruct (cloneLoop_rows depth h d elements rows Hrows (<[d := []]> h) [] [])
    as (h' & acc' & Hloop & Hframe & Hd' & Hcopies); try done.
  - intros l Hl. rewrite lookup_insert_ne; [done|]. by intros <-.
  - apply lookup_insert_eq.
  - exists h', d. simpl in Hd', Hcopies. repeat split; try done.
    + rewrite cloneArray_S, Harray. cbv zeta. fold d. by rewrite Hloop.
    + apply readRows_Forall2. exists acc'. split; [done|].
      eapply Forall2_impl; [exact Hcopies|].
      intros v row (r & -> & _ & _ & Hr). by exists r.
    + intros l Hl. unfold copyLocs in Hl. rewrite Hd' in Hl.
      apply elem_of_cons in Hl as [->|Hl]; [done|].
      apply list_elem_of_In, in_flat_map in Hl as (v & Hv & Hl).
      apply list_elem_of_In in Hv.
      clear -Hv Hl Hcopies.
      induction Hcopies as [|v' row acc rows' (r & -> & Hr0 & _) _ IH];
        [by apply elem_of_nil in Hv|].
      apply elem_of_cons in Hv as [->|Hv]; [|by apply IH].
      simpl in Hl. destruct Hl as [<-|[]]. done.
Qed.

Lemma tableReads_intro depth (h : heap) this columns rows :
  readStrings h (columnsRef this) = Some columns ->
  readRows h (dataRef this) = Some rows ->
  tableReads depth h this columns rows.
Proof.
  intros Hc Hr. repeat split; try done.
  - apply readStrings_Some in Hc as Hc'. unfold get_columns.
    rewrite (cloneArray_strings _ _ _ _ Hc'). do 2 eexists. split; [done|].
    apply readStrings_Some, lookup_insert_eq.
  - destruct (cloneArray_rows depth h _ _ Hr) as (h' & d & Hclone & _ & Hrows & _).
    by exists h', d.
Qed.

(** C10: the copy the column accessor returns holds the column names, and
    the copy the row accessor returns holds the rows; and however the
    returned array, or an array of a row it holds, is changed afterwards,
    the fields of the table lead to the same strings as before, and so do
    the copies that later calls of the two accessors return. *)
Theorem defensive_copy depth (h : heap) this columns rows :
  readStrings h (columnsRef this) = Some columns ->
  readRows h (dataRef this) = Some rows ->
  (exists (h' : heap) c,
     get_columns (1 + depth) h this = Some (h', c)
     /\ readStrings h' c = Some columns
     /\ forall h'' : heap,
          mutated [c] h' h'' -> tableReads depth h'' this columns rows)
  /\ (exists (h' : heap) d,
        get_data (2 + depth) h this = Some (h', d)
        /\ readRows h' d = Some rows
        /\ forall h'' : heap,
             mutated (copyLocs h' d) h' h'' ->
             tableReads depth h'' this columns rows).
Proof.
  intros Hc Hr. split.
  - apply readStrings_Some in Hc as Hc'. unfold get_columns.
    rewrite (cloneArray_strings _ _ _ _ Hc'). do 2 eexists. split; [done|].
    split; [apply readStrings_Some, lookup_insert_eq|].
    intros h'' Hmut.
    assert (frame h h'') as Hframe.
    { intros l Hl. rewrite Hmut.
      - rewrite lookup_insert_ne; [done|]. intros <-. by apply is_fresh in Hl.
      - intros Hin%list_elem_of_singleton. subst l. by apply is_fresh in Hl. }
    apply tableReads_intro; [by eapply readStrings_frame|by eapply readRows_frame].
  - destruct (cloneArray_rows depth h _ _ Hr)
      as (h' & d & Hclone & Hframe' & Hrows & Hfresh).
    exists h', d. repeat split; try done.
    1-4: match goal with Hm : mutated _ _ ?h2 |- _ =>
           assert (frame h h2) as Hframe
             by (intros l Hl; rewrite Hm;
                 [by apply Hframe'|intros Hin; by apply Hfresh in Hin]);
           apply (tableReads_intro depth h2 this columns rows);
             [by eapply readStrings_frame|by eapply readRows_frame]
         end.
Qed.

Lemma defensive_copy_witness :
  let h : heap :=
    <[1%positive := [VString (str "a")]]>
      (<[2%positive := [VArray 3%positive]]>
         (<[3%positive := [VString (str "x")]]> ∅)) in
  exists (h' : heap) d,
    get_data 2 h (mkTableObject 1 2) = Some (h', d)
    /\ readRows h' d = Some [[str "x"]].
Proof.
  intros h.
  destruct (defensive_copy 0 h (mkTableObject 1 2) [str "a"] [[str "x"]]
              eq_refl eq_refl) as [_ (h' & d & Hget & Hrows & _)].
  by exists h', d.
Defined.

End StoreFacts.

(** ** More of the parser: single fields *)

Lemma quotedLoop_unclosed (f : jsstring) : forall pre acc i,
  dquote ∉ f -> i = length pre ->
  quotedLoop (pre ++ f) i acc = (acc ++ removelast f, length pre + length f).
Proof.
  induction f as [|c f IH]; intros pre acc i Hfree Hi.
  - rewrite quotedLoop_eq, !app_nil_r. simpl.
    destruct (decide _) as [Hlt|_]; [lia|]. f_equal. lia.
  - destruct f as [|d f].
    + rewrite quotedLoop_eq, length_snoc. simpl.
      destruct (decide _) as [Hlt|_]; [lia|]. rewrite app_nil_r. f_equal. lia.
    + rewrite quotedLoop_eq, list_lookup_middle by done.
      in_range. simpl.
      destruct (N.eqb_spec c dquote) as [->|_]; [destruct Hfree; by left|].
      simpl. rewrite app_cons_shift, (IH (pre ++ [c])).
      * rewrite <- app_assoc, length_snoc. simpl. f_equal. lia.
      * intros Hin. apply Hfree. by right.
      * rewrite length_snoc. lia.
Qed.

(** X1: what [convertToproperStr] writes for a field, [parseColumn] reads
    back as that field, for every string, the empty one too, wherever the
    encoded field stands in the text, when the end of the text, a comma or
    a newline follows it; the position returned is that of what follows. *)
Theorem field_roundTrip (f pre post : jsstring) :
  post = [] \/ (exists c rest, post = c :: rest /\ (c = comma \/ c = newline)) ->
  parseColumn (pre ++ convertToproperStr f ++ post) (length pre)
  = (f, length pre + length (convertToproperStr f)).
Proof.
  intros Hpost. apply parseColumn_encoded; [done|].
  destruct Hpost as [->|(c & rest & -> & [->| ->])]; done.
Qed.

Lemma field_roundTrip_witness :
  parseColumn (str "x," ++ convertToproperStr (dquote :: str "a,b") ++ str ",y")
    (length (str "x,"))
  = (dquote :: str "a,b",
     length (str "x,") + length (convertToproperStr (dquote :: str "a,b"))).
Proof.
  apply field_roundTrip. right. exists comma, (str "y"). split; [reflexivity|by left].
Defined.

(** X2: a field between double quotes, with its own double quotes doubled,
    is read as that field whether it needed the quotes or not, when the
    end of the text or any character but a double quote follows the
    closing quote. *)
Theorem quoted_field_decodes (f pre post : jsstring) :
  post !! 0 <> Some dquote ->
  parseColumn (pre ++ ([dquote] ++ escapeQuotes f ++ [dquote]) ++ post) (length pre)
  = (f, length pre + length (escapeQuotes f) + 2).
Proof.
  intros Hpost. pose proof (parseColumn_wrapped f pre post Hpost) as H.
  unfold wrapped in H. rewrite H. f_equal.
  rewrite !length_app. simpl. lia.
Qed.

Lemma quoted_field_decodes_witness :
  parseColumn ([] ++ ([dquote] ++ escapeQuotes (str "plain") ++ [dquote]) ++ str ",z")
    (length ([] : jsstring))
  = (str "plain", length ([] : jsstring) + length (escapeQuotes (str "plain")) + 2).
Proof. apply quoted_field_decodes. discriminate. Defined.

(** X3: a quoted field that the text ends in, with no double quote after
    the opening one, is read without its last character: the loop stops
    one short of the end of the text. *)
Theorem unclosed_quote_drops_last (f pre : jsstring) :
  dquote ∉ f ->
  parseColumn (pre ++ dquote :: f) (length pre)
  = (removelast f, length pre + 1 + length f).
Proof.
  intros Hfree. unfold parseColumn. rewrite list_lookup_middle by done. simpl.
  rewrite app_cons_shift, (quotedLoop_unclosed f (pre ++ [dquote])); try done.
  - rewrite length_snoc. f_equal. lia.
  - rewrite length_snoc. lia.
Qed.

Lemma unclosed_quote_drops_last_witness :
  parseColumn (str "a," ++ dquote :: str "xyz") (length (str "a,"))
  = (str "xy", length (str "a,") + 1 + length (str "xyz")).
Proof.
  apply (unclosed_quote_drops_last (str "xyz") (str "a,")).
  vm_compute. intros H.
  repeat (apply elem_of_cons in H as [H|H]; [discriminate|]).
  by apply elem_of_nil in H.
Defined.

(** ** More of the parser: rows *)

Lemma parseRowLoop_stops fuel : forall data index acc row e,
  parseRowLoop fuel data index acc = Some (row, e) ->
  data !! e = None \/ data !! e = Some newline.
Proof.
  induction fuel as [|fuel IH]; intros data index acc row e H; [done|].
  simpl in H. destruct (parseColumn data index) as [p e0].
  destruct (data !! e0) as [c|] eqn:Hc; [|injection H as <- <-; by left].
  destruct (N.eqb c comma); [by eapply IH|].
  destruct (N.eqb_spec c newline) as [->|_]; [|by eapply IH].
  injection H as <- <-. by right.
Qed.

(** X4: when [parseRow] returns, the position it returns is not before
    the one it started at nor after the end of the text, and it is the end
    of the text or the place of a newline. *)
Theorem parseRow_stops fuel data index row e :
  index <= length data ->
  parseRow fuel data index = Some (row, e) ->
  index <= e <= length data
  /\ (e = length data \/ data !! e = Some newline).
Proof.
  intros Hi H. unfold parseRow in H.
  split; [by eapply parseRowLoop_bounds|].
  pose proof (parseRowLoop_bounds _ _ _ _ _ _ H Hi) as Hb.
  apply parseRowLoop_stops in H as [H|H]; [left|by right].
  apply lookup_ge_None in H. lia.
Qed.

Lemma parseRow_stops_witness :
  0 <= 3 <= length (str "a,b" ++ newline :: str "c")
  /\ (3 = length (str "a,b" ++ newline :: str "c")
      \/ (str "a,b" ++ newline :: str "c") !! 3 = Some newline).
Proof.
  apply (parseRow_stops 3 (str "a,b" ++ newline :: str "c") 0 [str "a"; str "b"] 3).
  - simpl. lia.
  - reflexivity.
Defined.

(** X5: a quoted field that is closed and then followed by a character
    that is no comma, no newline and no double quote makes [getDataFrom]
    run for ever when it stands first in the text, whatever the field and
    whatever comes after that character. *)
Theorem closed_quote_then_char_hangs (f rest : jsstring) c fuel filename this :
  c <> comma -> c <> newline -> c <> dquote ->
  getDataFrom fuel filename None (wrapped f ++ c :: rest) this = None.
Proof.
  intros Hcomma Hnl Hq. unfold getDataFrom, parse, parseRow.
  rewrite (parseRowLoop_stuck _ 0 [] f (length (wrapped f)) c); try done.
  - apply (parseColumn_wrapped f [] (c :: rest)). simpl. congruence.
  - by apply list_lookup_middle.
  - by apply N.eqb_neq.
  - by apply N.eqb_neq.
Qed.

Lemma closed_quote_then_char_hangs_witness :
  getDataFrom 100 (str "t.csv") None (wrapped (str "a,b") ++ 32%N :: str "c") emptyTable
  = None.
Proof. apply closed_quote_then_char_hangs; discriminate. Defined.

(** ** More of the codec: whole tables *)

Lemma parse_toString_same C R fuel :
  Forall (fun r => length r = length C) R ->
  last C <> Some [] ->
  Forall (fun r => last r <> Some []) R ->
  length C + length R < fuel ->
  parse fuel (toString (mkTable C R)) = Some (inr (C, R)).
Proof.
  intros Hshape HC HR Hfuel. rewrite parse_toString; simpl.
  - rewrite keptFields_id, map_keptFields_id by done.
    by apply (checkRows_None (mkTable C []) R 0) in Hshape as ->.
  - lia.
  - intros r Hr. rewrite Forall_forall in Hshape.
    rewrite (Hshape r) by done. lia.
Qed.

(** X6: parsing the text of any table returns, whatever the shape of the
    table: the columns are read without an empty last name, each row
    without an empty last field, and the result is the rejection for the
    first row that has then not as many fields as there are columns, or
    else these columns and rows. *)
Theorem parse_of_toString this :
  exists fuel,
    parse fuel (toString this)
    = Some match checkRows (mkTable (keptFields (_columns this)) []) 0
                   (map keptFields (_data this)) with
           | Some e => inl e
           | None => inr (keptFields (_columns this), map keptFields (_data this))
           end.
Proof.
  exists (2 + length (_columns this) + length (_data this)
          + length (concat (_data this))).
  apply parse_toString; [lia|]. intros r Hr%length_le_concat. lia.
Qed.

(** X7: two tables whose rows have the length of their columns, and in
    which neither the columns nor a row end with an empty string, have the
    same text only if they are the same table. *)
Theorem toString_injective t1 t2 :
  wellShaped t1 -> wellShaped t2 ->
  last (_columns t1) <> Some [] -> last (_columns t2) <> Some [] ->
  Forall (fun r => last r <> Some []) (_data t1) ->
  Forall (fun r => last r <> Some []) (_data t2) ->
  toString t1 = toString t2 -> t1 = t2.
Proof.
  destruct t1 as [C1 R1], t2 as [C2 R2]. unfold wellShaped. simpl.
  intros Hs1 Hs2 Hc1 Hc2 Hr1 Hr2 Heq.
  pose proof (parse_toString_same C1 R1 (S (length C1 + length R1))
                Hs1 Hc1 Hr1 ltac:(lia)) as H1.
  pose proof (parse_toString_same C2 R2 (S (length C2 + length R2))
                Hs2 Hc2 Hr2 ltac:(lia)) as H2.
  rewrite Heq in H1. pose proof (parse_agree _ _ _ _ _ H1 H2) as [= -> ->]. done.
Qed.

Lemma toString_injective_witness :
  mkTable [str "a"] [[str "1"]] = mkTable [str "a"] [[] ++ [str "1"]].
Proof.
  apply toString_injective;
    first [reflexivity | discriminate | repeat constructor; discriminate].
Defined.

(** ** Texts without double quotes *)

Lemma splitOn_join sep s :
  match splitOn sep s with
  | [] => False
  | piece :: pieces => s = piece ++ flat_map (fun q => sep :: q) pieces
  end.
Proof.
  induction s as [|c s IH]; simpl; [done|].
  destruct (N.eqb_spec c sep) as [->|_]; simpl.
  - destruct (splitOn sep s) as [|piece pieces]; [done|]. simpl. by f_equal.
  - destruct (splitOn sep s) as [|piece pieces]; [done|]. simpl. by f_equal.
Qed.

Lemma splitOn_pieces sep s piece :
  piece ∈ splitOn sep s -> (sep ∉ piece) /\ (forall c, c ∈ piece -> c ∈ s).
Proof.
  revert piece. induction s as [|c s IH]; intros piece; simpl.
  - intros ->%list_elem_of_singleton. split; [apply not_elem_of_nil|done].
  - destruct (N.eqb_spec c sep) as [->|Hne].
    + intros [->|Hin]%elem_of_cons.
      * split; [apply not_elem_of_nil|]. intros c Hc. by apply elem_of_nil in Hc.
      * destruct (IH _ Hin) as [H1 H2]. split; [done|].
        intros c Hc. right. by apply H2.
    + pose proof (splitOn_join sep s) as Hj.
      destruct (splitOn sep s) as [|p ps]; [done|].
      intros [->|Hin]%elem_of_cons.
      * destruct (IH p ltac:(by left)) as [H1 H2]. split.
        -- intros [Heq|Hin]%elem_of_cons; [by destruct Hne|done].
        -- intros c' [->|Hc']%elem_of_cons; [by left|]. right. by apply H2.
      * destruct (IH piece ltac:(by right)) as [H1 H2]. split; [done|].
        intros c' Hc'. right. by apply H2.
Qed.

Lemma convertToproperStr_plain (f : jsstring) :
  comma ∉ f -> newline ∉ f -> dquote ∉ f -> convertToproperStr f = f.
Proof.
  intros Hc Hn Hq. rewrite convertToproperStr_spec.
  destruct (mustQuote f) eqn:Hm; [|done].
  apply mustQuote_true in Hm as [H|[H|H]]; try done.
  destruct Hq. by eapply list_elem_of_lookup_2.
Qed.

Lemma joinFields_splitOn (l : jsstring) :
  newline ∉ l -> dquote ∉ l -> joinFields (splitOn comma l) = l.
Proof.
  intros Hn Hq. pose proof (splitOn_join comma l) as Hj.
  pose proof (splitOn_pieces comma l) as Hp.
  destruct (splitOn comma l) as [|p ps]; [done|].
  assert (forall q, q ∈ p :: ps -> convertToproperStr q = q) as Hplain.
  { intros q Hin. destruct (Hp q Hin) as [H1 H2].
    apply convertToproperStr_plain; [done|..]; intros Hin'; apply H2 in Hin'; done. }
  unfold joinFields. rewrite (Hplain p) by (by left).
  transitivity (p ++ flat_map (fun q => comma :: q) ps); [|by symmetry]. f_equal.
  assert (forall q, q ∈ ps -> convertToproperStr q = q) as Hps
    by (intros q Hin; apply Hplain; by right).
  clear -Hps. induction ps as [|q ps IH]; [done|]. simpl.
  rewrite (Hps q) by (by left). do 2 f_equal. apply IH.
  intros q' Hin. apply Hps. by right.
Qed.

Lemma toString_splitTable (T : jsstring) :
  dquote ∉ T ->
  toString (mkTable (fst (splitTable T)) (snd (splitTable T))) = T.
Proof.
  intros Hq. rewrite toString_spec. unfold splitTable.
  pose proof (splitOn_join newline T) as Hj.
  pose proof (splitOn_pieces newline T) as Hp.
  destruct (splitOn newline T) as [|l0 ls]; [done|]. simpl.
  assert (forall l, l ∈ l0 :: ls -> joinFields (splitOn comma l) = l) as Hline.
  { intros l Hin. destruct (Hp l Hin) as [H1 H2].
    apply joinFields_splitOn; [done|]. intros Hin'. by apply H2 in Hin'. }
  rewrite (Hline l0) by (by left).
  transitivity (l0 ++ flat_map (fun q => newline :: q) ls); [|by symmetry]. f_equal.
  rewrite flat_map_concat_map, map_map, <- flat_map_concat_map.
  assert (forall l, l ∈ ls -> joinFields (splitOn comma l) = l) as Hls
    by (intros l Hin; apply Hline; by right).
  clear -Hls. induction ls as [|l ls IH]; [done|]. simpl.
  rewrite (Hls l) by (by left). do 2 f_equal. apply IH.
  intros l' Hin. apply Hls. by right.
Qed.

Lemma parse_splitTable (T : jsstring) :
  dquote ∉ T ->
  parse (2 + length (fst (splitTable T)) + length (snd (splitTable T))
         + length (concat (snd (splitTable T)))) T
  = Some match checkRows (mkTable (keptFields (fst (splitTable T))) []) 0
                 (map keptFields (snd (splitTable T))) with
         | Some e => inl e
         | None => inr (keptFields (fst (splitTable T)),
                        map keptFields (snd (splitTable T)))
         end.
Proof.
  intros Hq.
  set (C0 := fst (splitTable T)). set (R0 := snd (splitTable T)).
  rewrite <- (toString_splitTable T Hq) at 1. fold C0 R0.
  apply (parse_toString (mkTable C0 R0)); simpl; [lia|].
  intros r Hr%length_le_concat. lia.
Qed.

(** X8: a text without double quotes is parsed as its lines split at the
    commas: [parse] returns, the columns are the pieces of the first line
    and the rows those of the other lines, each without an empty last
    piece, and the parse is rejected for the first line that has then not
    as many pieces as the header. *)
Theorem parse_splits (T : jsstring) :
  dquote ∉ T ->
  exists fuel,
    parse fuel T
    = Some match checkRows (mkTable (keptFields (fst (splitTable T))) []) 0
                   (map keptFields (snd (splitTable T))) with
           | Some e => inl e
           | None => inr (keptFields (fst (splitTable T)),
                          map keptFields (snd (splitTable T)))
           end.
Proof.
  intros Hq. eexists. by apply parse_splitTable.
Qed.

Lemma parse_splits_witness :
  exists fuel,
    parse fuel (str "a,b" ++ newline :: str "1,2" ++ newline :: str "3,")
    = Some (inl (inconsistentRowLengths 2 1 2)).
Proof.
  apply (parse_splits (str "a,b" ++ newline :: str "1,2" ++ newline :: str "3,")).
  vm_compute. intros H.
  repeat (apply elem_of_cons in H as [H|H]; [discriminate|]).
  by apply elem_of_nil in H.
Defined.

(** ** Saving and loading *)

(** X9: a table whose rows have the length of its columns, and in which
    neither the columns nor a row end with an empty string, is the table
    that [new Table(filename)] reads once [saveTo] has written it to that
    name without an error, provided that a read after the successful write
    of the text of this table to that name delivers that text. Nothing is
    asked of the files for any other text or name. *)
Theorem save_then_load (files : Type)
    (writeFile : jsstring -> jsstring -> files -> option ErrnoException * files)
    (readFile : jsstring -> files -> option ErrnoException * jsstring)
    filename this fs fs' :
  (forall s', writeFile filename (toString this) fs = (None, s') ->
              readFile filename s' = (None, toString this)) ->
  wellShaped this ->
  last (_columns this) <> Some [] ->
  Forall (fun r => last r <> Some []) (_data this) ->
  saveTo files writeFile filename this fs = (Normal tt, fs') ->
  exists fuel,
    newTableFromFile files readFile fuel filename fs' = Some (Normal tt, this).
Proof.
  intros Hrw Hshape HC HR Hsave. unfold saveTo in Hsave.
  destruct (writeFile filename (toString this) fs) as [[err|] s'] eqn:Hw; [done|].
  injection Hsave as <-. specialize (Hrw s' eq_refl).
  exists (S (length (_columns this) + length (_data this))).
  unfold newTableFromFile, getDataFrom. rewrite Hrw.
  destruct this as [C R]. simpl in *.
  by rewrite parse_toString_same by (done || lia).
Qed.

Lemma save_then_load_witness :
  exists fuel,
    newTableFromFile (gmap (list N) (list N))
      (fun name fs => match fs !! name with
                      | Some content => (None, content)
                      | None => (Some {| message := str "ENOENT" |}, [])
                      end)
      fuel (str "t.csv")
      (<[str "t.csv" := toString (mkTable [str "a"; str "b"] [[str "1"; str "x,y"]])]>
         (∅ : gmap (list N) (list N)))
    = Some (Normal tt, mkTable [str "a"; str "b"] [[str "1"; str "x,y"]]).
Proof.
  apply (save_then_load (gmap (list N) (list N))
           (fun name content fs => (None, <[name := content]> fs))
           _ (str "t.csv") (mkTable [str "a"; str "b"] [[str "1"; str "x,y"]]) ∅).
  - intros s' [= <-]. by rewrite lookup_insert_eq.
  - repeat constructor.
  - discriminate.
  - repeat constructor; discriminate.
  - reflexivity.
Defined.

(** ** The text of the error, once more *)

(** X10: the error for a row of the wrong length tells the row and the two
    lengths apart: two such errors with the same text have the same row
    number, the same length of the row and the same number of columns. *)
Theorem inconsistentRowLengths_inj n a e n' a' e' :
  description (inconsistentRowLengths n a e)
  = description (inconsistentRowLengths n' a' e') ->
  n = n' /\ a = a' /\ e = e'.
Proof.
  unfold inconsistentRowLengths. cbn [description]. intros H.
  apply (inj Some) in H.
  apply (template_inj (str "The row number ")
           (str "does not have the correct amount of columns (it has ")
           (str "instead of ") [] 32%N 32%N 41%N); [lia..|exact H].
Qed.

Lemma inconsistentRowLengths_inj_witness : 12 = 12 /\ 0 = 0 /\ 3 = 3.
Proof. apply (inconsistentRowLengths_inj 12 0 3 12 0 3). reflexivity. Defined.

(** ** Copies of nested arrays, and the arrays a table is given *)

Module CloneFacts.
Import Store.

Lemma frame_dom (h h' : heap) : frame h h' -> dom h ⊆ dom h'.
Proof.
  intros Hframe l Hl. apply elem_of_dom. rewrite Hframe by done.
  by apply elem_of_dom.
Qed.

Lemma readTree_string depth (h : heap) s : readTree depth h (VString s) = Some (Leaf s).
Proof. by destruct depth. Qed.

Lemma readTree_array depth (h : heap) l t :
  readTree (S depth) h (VArray l) = Some t
  <-> exists elements children,
        h !! l = Some elements
        /\ Forall2 (fun e ch => readTree depth h e = Some ch) elements children
        /\ t = Node children.
Proof.
  simpl. destruct (h !! l) as [elements|]; [|split; [done|by intros (? & ? & ? & _)]].
  rewrite fmap_Some. split.
  - intros (children & Hm & ->). exists elements, children.
    by rewrite <- mapM_Some.
  - intros (elements' & children & [= <-] & Hm & ->). exists children.
    by rewrite mapM_Some.
Qed.

Lemma readTree_frame depth : forall (h h' : heap) v t,
  readTree depth h v = Some t -> frame h h' -> readTree depth h' v = Some t.
Proof.
  induction depth as [|depth IH]; intros h h' [s|l] t H Hframe; try done.
  apply readTree_array in H as (elements & children & Hl & Hch & ->).
  apply readTree_array. exists elements, children. split_and!.
  - rewrite Hframe; [done|]. apply elem_of_dom. by eexists.
  - eapply Forall2_impl; [exact Hch|]. intros e ch He. exact (IH h h' e ch He Hframe).
  - done.
Qed.

(** What the recursive call of [cloneArray] is to do, for the loop. *)
Lemma cloneLoop_deep depth (clone : heap -> loc -> option (heap * loc))
    (h0 : heap) c :
  (forall (h : heap) l t,
     readTree depth h (VArray l) = Some t ->
     exists (h' : heap) k (F : gset positive),
       clone h l = Some (h', k) /\ frame h h' /\ (k ∈ F) /\ (F ## dom h)
       /\ (F ⊆ dom h')
       /\ forall h2, agreeOn F h' h2 -> readTree depth h2 (VArray k) = Some t) ->
  forall elements children,
    Forall2 (fun e ch => readTree depth h0 e = Some ch) elements children ->
    forall (hc : heap) acc accCh (F : gset positive),
      frame h0 hc -> c ∉ dom h0 -> hc !! c = Some acc ->
      c ∉ F -> F ## dom h0 -> F ⊆ dom hc ->
      (forall h2, agreeOn F hc h2 ->
         Forall2 (fun e ch => readTree depth h2 e = Some ch) acc accCh) ->
      exists (h' : heap) acc' (F' : gset positive),
        cloneLoop clone elements c hc = Some h'
        /\ frame h0 h' /\ h' !! c = Some (acc ++ acc')
        /\ (c ∉ F') /\ (F' ## dom h0) /\ (F' ⊆ dom h')
        /\ forall h2, agreeOn F' h' h2 ->
             Forall2 (fun e ch => readTree depth h2 e = Some ch)
               (acc ++ acc') (accCh ++ children).
Proof.
  intros Hclone. induction 1 as [|e ch elements children He _ IH];
    intros hc acc accCh F Hframe Hc0 Hacc HcF HF0 HFc Hreads.
  - exists hc, [], F. rewrite !app_nil_r. by split_and!.
  - assert (c ∈ dom hc) as Hc by (apply elem_of_dom; by eexists).
    destruct e as [s|inner].
    + rewrite readTree_string in He. injection He as <-. cbn [cloneLoop].
      destruct (IH (push hc c (VString s)) (acc ++ [VString s])
                  (accCh ++ [Leaf s]) F)
        as (h' & acc' & F' & Hloop & H1 & H2 & H3 & H4 & H5 & H6); try done.
      * intros l Hl. unfold push. rewrite lookup_alter_ne by (by intros ->).
        by apply Hframe.
      * unfold push. by rewrite lookup_alter_eq, Hacc.
      * unfold push. by rewrite dom_alter_L.
      * intros h2 Hagree. apply Forall2_app.
        -- apply Hreads. intros l Hl. rewrite Hagree by done.
           unfold push. by rewrite lookup_alter_ne by (by intros ->).
        -- constructor; [apply readTree_string|constructor].
      * exists h', (VString s :: acc'), F'. rewrite <- !app_assoc in *.
        by split_and!.
    + apply (readTree_frame _ _ hc) in He; [|done].
      destruct (Hclone hc inner ch He)
        as (h1 & k & Fk & Hk & Hframe1 & HkF & HFk & HFk1 & Hreadk).
      cbn [cloneLoop]. rewrite Hk.
      pose proof (frame_dom _ _ Hframe) as Hdom0.
      pose proof (frame_dom _ _ Hframe1) as Hdom1.
      assert (c ∉ Fk) as HcFk by set_solver.
      destruct (IH (push h1 c (VArray k)) (acc ++ [VArray k]) (accCh ++ [ch])
                  (F ∪ Fk))
        as (h' & acc' & F' & Hloop & H1 & H2 & H3 & H4 & H5 & H6); try done.
      * intros l Hl. unfold push. rewrite lookup_alter_ne by (by intros ->).
        rewrite Hframe1 by set_solver. by apply Hframe.
      * unfold push. rewrite lookup_alter_eq, Hframe1 by done. by rewrite Hacc.
      * set_solver.
      * set_solver.
      * unfold push. rewrite dom_alter_L. set_solver.
      * intros h2 Hagree. apply Forall2_app.
        -- apply Hreads. intros l Hl. rewrite Hagree by set_solver.
           unfold push. rewrite lookup_alter_ne by (by intros ->).
           apply Hframe1. set_solver.
        -- constructor; [|constructor]. apply Hreadk. intros l Hl.
           rewrite Hagree by set_solver.
           unfold push. by rewrite lookup_alter_ne by (by intros ->).
      * exists h', (VArray k :: acc'), F'. rewrite <- !app_assoc in *.
        by split_and!.
Qed.

Lemma cloneArray_footprint depth : forall (h : heap) l t,
  readTree depth h (VArray l) = Some t ->
  exists (h' : heap) c (F : gset positive),
    cloneArray depth h l = Some (h', c) /\ frame h h' /\ (c ∈ F) /\ (F ## dom h)
    /\ (F ⊆ dom h')
    /\ forall h2, agreeOn F h' h2 -> readTree depth h2 (VArray c) = Some t.
Proof.
  induction depth as [|depth IH]; intros h l t H; [done|].
  apply readTree_array in H as (elements & children & Hl & Hch & ->).
  set (c := fresh (dom h)).
  assert (c ∉ dom h) as Hc by apply is_fresh.
  destruct (cloneLoop_deep depth (cloneArray depth) h c IH elements children Hch
              (<[c := []]> h) [] [] ∅)
    as (h' & acc' & F' & Hloop & H1 & H2 & H3 & H4 & H5 & H6); try done.
  - intros l0 Hl0. rewrite lookup_insert_ne; [done|]. by intros <-.
  - apply lookup_insert_eq.
  - simpl in H2, H6. exists h', c, (F' ∪ {[c]}). split_and!.
    + rewrite StoreFacts.cloneArray_S, Hl. cbv zeta. fold c. by rewrite Hloop.
    + done.
    + set_solver.
    + set_solver.
    + assert (c ∈ dom h') by (apply elem_of_dom; by eexists). set_solver.
    + intros h2 Hagree. apply readTree_array. exists acc', children.
      split_and!.
      * rewrite Hagree by set_solver. done.
      * apply H6. intros l0 Hl0. apply Hagree. set_solver.
      * done.
Qed.

(** X11: [cloneArray] copies arrays nested to any depth: the array it
    returns is a new one, the arrays that were there are as they were, the
    copy holds the same strings in the same nesting, and it does so
    whatever is later written into any of the arrays that were there. *)
Theorem cloneArray_deep depth (h : heap) l t :
  readTree depth h (VArray l) = Some t ->
  exists (h' : heap) c,
    cloneArray depth h l = Some (h', c)
    /\ (c ∉ dom h)
    /\ (forall l0, l0 ∈ dom h -> h' !! l0 = h !! l0)
    /\ readTree depth h' (VArray c) = Some t
    /\ (forall h2 : heap,
          (forall l0, l0 ∉ dom h -> h2 !! l0 = h' !! l0) ->
          readTree depth h2 (VArray c) = Some t).
Proof.
  intros H.
  destruct (cloneArray_footprint depth h l t H)
    as (h' & c & F & Hclone & Hframe & Hc & HF & HF' & Hreads).
  exists h', c. split_and!; try done.
  - set_solver.
  - by apply Hreads.
  - intros h2 Hagree. apply Hreads. intros l0 Hl0. apply Hagree. set_solver.
Qed.

Lemma cloneArray_deep_witness :
  let h : heap :=
    <[1%positive := [VString (str "a"); VArray 2%positive]]>
      (<[2%positive := [VArray 3%positive; VArray 3%positive]]>
         (<[3%positive := [VString (str "x")]]> ∅)) in
  exists (h' : heap) c,
    cloneArray 3 h 1%positive = Some (h', c)
    /\ readTree 3 h' (VArray c)
       = Some (Node [Leaf (str "a");
                     Node [Node [Leaf (str "x")]; Node [Leaf (str "x")]]]).
Proof.
  intros h.
  destruct (cloneArray_deep 3 h 1%positive
              (Node [Leaf (str "a");
                     Node [Node [Leaf (str "x")]; Node [Leaf (str "x")]]])
              eq_refl) as (h' & c & Hclone & _ & _ & Hread & _).
  by exists h', c.
Defined.

End CloneFacts.

Module SetterFacts.
Import Store.

Lemma set_data_ref (h : heap) this data this' :
  set_data h this data = Some (inr this') ->
  this' = {| columnsRef := columnsRef this; dataRef := data |}.
Proof.
  unfold set_data. destruct (h !! columnsRef this); [|done].
  destruct (h !! data); [|done].
  destruct (checkElements _ _ _ _) as [[e|]|]; try done. by intros [= <-].
Qed.

Lemma copies_read (h' : heap) this depth :
  (forall cols,
     readStrings h' (columnsRef this) = Some cols ->
     exists (h'' : heap) c,
       get_columns (1 + depth) h' this = Some (h'', c)
       /\ readStrings h'' c = Some cols)
  /\ (forall rows,
        readRows h' (dataRef this) = Some rows ->
        exists (h'' : heap) d,
          get_data (2 + depth) h' this = Some (h'', d)
          /\ readRows h'' d = Some rows).
Proof.
  split.
  - intros cols Hc%StoreFacts.readStrings_Some. unfold get_columns.
    rewrite (StoreFacts.cloneArray_strings _ _ _ _ Hc). do 2 eexists.
    split; [done|]. apply StoreFacts.readStrings_Some, lookup_insert_eq.
  - intros rows Hr.
    destruct (StoreFacts.cloneArray_rows depth h' _ _ Hr)
      as (h'' & d & Hclone & _ & Hrows & _).
    by exists h'', d.
Qed.

(** X12: the constructor and the [data] setter keep the arrays they are
    given, not copies of them: whatever strings the array given as columns
    and the array given as rows hold at a later time, of the right shape
    or not, are the strings in the copies that the accessors return at
    that time. *)
Theorem arguments_are_kept depth :
  (forall (h : heap) columns data h1 this,
     newTable h columns data = Some (h1, inr this) ->
     forall h' : heap,
       (forall cols,
          readStrings h' columns = Some cols ->
          exists (h'' : heap) c,
            get_columns (1 + depth) h' this = Some (h'', c)
            /\ readStrings h'' c = Some cols)
       /\ (forall rows,
             readRows h' data = Some rows ->
             exists (h'' : heap) d,
               get_data (2 + depth) h' this = Some (h'', d)
               /\ readRows h'' d = Some rows))
  /\ (forall (h : heap) this data this',
        set_data h this data = Some (inr this') ->
        forall (h' : heap) rows,
          readRows h' data = Some rows ->
          exists (h'' : heap) d,
            get_data (2 + depth) h' this' = Some (h'', d)
            /\ readRows h'' d = Some rows).
Proof.
  split.
  - intros h columns data h1 this Hnew h'. unfold newTable in Hnew.
    destruct (set_data _ _ data) as [[e|this']|] eqn:Hset; try done.
    injection Hnew as _ <-. apply set_data_ref in Hset as ->.
    apply (copies_read h' {| columnsRef := columns; dataRef := data |}).
  - intros h this data this' Hset%set_data_ref h' rows Hr. subst this'.
    by apply (copies_read h' {| columnsRef := columnsRef this; dataRef := data |}).
Qed.

Lemma arguments_are_kept_witness :
  let h : heap :=
    <[1%positive := [VString (str "a"); VString (str "b")]]>
      (<[2%positive := [VArray 3%positive]]>
         (<[3%positive := [VString (str "1"); VString (str "2")]]> ∅)) in
  exists (h1 : heap) this,
    newTable h 1%positive 2%positive = Some (h1, inr this)
    /\ exists (h'' : heap) d,
         get_data 2 (<[3%positive := [VString (str "1")]]> h1) this = Some (h'', d)
         /\ readRows h'' d = Some [[str "1"]].
Proof.
  intros h.
  destruct (newTable h 1%positive 2%positive) as [[h1 [e|this]]|] eqn:Hnew;
    try (vm_compute in Hnew; discriminate).
  exists h1, this. split; [done|].
  apply (proj2 (proj1 (arguments_are_kept 0) h 1%positive 2%positive h1 this Hnew
                  (<[3%positive := [VString (str "1")]]> h1))).
  vm_compute in Hnew. injection Hnew as <- _. reflexivity.
Defined.

End SetterFacts.

(** ** From a text to a table and back *)

(** X13: when a text without double quotes, in which no line is empty or
    ends with a comma, parses to columns and rows, the text of the table
    of these columns and rows is that text again. *)
Theorem text_roundTrip (T : jsstring) fuel C R :
  dquote ∉ T ->
  Forall (fun line => last (splitOn comma line) <> Some []) (splitOn newline T) ->
  parse fuel T = Some (inr (C, R)) ->
  toString (mkTable C R) = T.
Proof.
  intros Hq Hlines Hparse.
  pose proof (parse_agree _ _ _ _ _ Hparse (parse_splitTable T Hq)) as Heq.
  pose proof (toString_splitTable T Hq) as Hto.
  unfold splitTable in *. pose proof (splitOn_join newline T) as Hj.
  destruct (splitOn newline T) as [|l0 ls]; [done|]. simpl in *.
  inversion Hlines as [|? ? Hl0 Hls]; subst.
  rewrite keptFields_id, map_keptFields_id in Heq;
    [|by apply Forall_fmap|done].
  destruct (checkRows _ 0 _); [done|]. by injection Heq as -> ->.
Qed.

Lemma text_roundTrip_witness :
  toString (mkTable [str "name"; str "age"] [[str "Carlos"; str "34"]])
  = str "name,age" ++ newline :: str "Carlos,34".
Proof.
  apply (text_roundTrip (str "name,age" ++ newline :: str "Carlos,34") 3).
  - vm_compute. intros H.
    repeat (apply elem_of_cons in H as [H|H]; [discriminate|]).
    by apply elem_of_nil in H.
  - repeat constructor; discriminate.
  - reflexivity.
Defined.
